(** * StableEvaluationAtAPoint: kernels, boundary potentials and the BVP solve

    A shallow embedding of
    [developers/StableEvaluationAtAPoint/mastersolution/stableevaluationatapoint.h]
    (NPDE homework, LehrFEM++ / Eigen).

    Conventions of the embedding:
    - a C++ [double] is idealised as a real number ([R]); [M_PI] is [PI],
      [std::sqrt], [std::log], [std::cos], [std::sin] are [sqrt], [ln], [cos],
      [sin], and [std::pow (x, 2)] is [x ^ 2];
    - [Eigen::Vector2d] is the record [Vector2d];
    - [LF_ASSERT_MSG] and [LF_VERIFY_MSG] stop the program: a computation that
      may run into one returns a [result], either [Ok] with a value or
      [Abort] with the failed check and its message; assertions are compiled
      in (a build without [NDEBUG]);
    - the LehrFEM++ and Eigen facilities the header calls are collaborators
      the header does not define; they enter as the fields of the classes
      [MeshProvider] and [FEServices]. *)

From Stdlib Require Import Reals Lra Lia String List Bool Permutation.
Import ListNotations.
Open Scope R_scope.

(** * The embedding *)

(** ** Outcome of a computation that may hit an assertion *)

Inductive Failure : Type :=
| AssertFailed (msg : string)   (* LF_ASSERT_MSG *)
| VerifyFailed (msg : string).  (* LF_VERIFY_MSG *)

Inductive result (A : Type) : Type :=
| Ok (a : A)
| Abort (f : Failure).
Arguments Ok {A} a.
Arguments Abort {A} f.

Definition bind {A B : Type} (m : result A) (k : A -> result B) : result B :=
  match m with
  | Ok a => k a
  | Abort f => Abort f
  end.

Notation "x <- m ;; k" := (bind m (fun x => k))
  (at level 61, m at next level, right associativity).
Notation "m ;;; k" := (bind m (fun _ => k))
  (at level 61, right associativity).

Definition LF_ASSERT_MSG (cond : bool) (msg : string) : result unit :=
  if cond then Ok tt else Abort (AssertFailed msg).

Definition LF_VERIFY_MSG (cond : bool) (msg : string) : result unit :=
  if cond then Ok tt else Abort (VerifyFailed msg).

(** Applicative lifting of a binary operation: the first failure wins. *)
Definition lift2 {A B C : Type} (f : A -> B -> C)
    (ma : result A) (mb : result B) : result C :=
  a <- ma ;; b <- mb ;; Ok (f a b).

(** ** Eigen::Vector2d *)

Record Vector2d : Type := Vec2 { coeff0 : R; coeff1 : R }.

Declare Scope vec_scope.
Delimit Scope vec_scope with vec.
Bind Scope vec_scope with Vector2d.

Definition vadd (u w : Vector2d) : Vector2d :=
  Vec2 (coeff0 u + coeff0 w) (coeff1 u + coeff1 w).
Definition vsub (u w : Vector2d) : Vector2d :=
  Vec2 (coeff0 u - coeff0 w) (coeff1 u - coeff1 w).
Definition vscale (s : R) (u : Vector2d) : Vector2d :=
  Vec2 (s * coeff0 u) (s * coeff1 u).
Definition vdiv (u : Vector2d) (s : R) : Vector2d :=
  Vec2 (coeff0 u / s) (coeff1 u / s).
Definition dot (u w : Vector2d) : R :=
  coeff0 u * coeff0 w + coeff1 u * coeff1 w.
Definition squaredNorm (u : Vector2d) : R := dot u u.
Definition norm (u : Vector2d) : R := sqrt (squaredNorm u).

Infix "+" := vadd : vec_scope.
Infix "-" := vsub : vec_scope.
Infix "*:" := vscale (at level 40, left associativity) : vec_scope.
Infix "/:" := vdiv (at level 40, left associativity) : vec_scope.

Definition Reqb (a b : R) : bool := if Req_dec_T a b then true else false.

(** Eigen's [operator!=] on vectors: some coefficient differs. *)
Definition vneq (u w : Vector2d) : bool :=
  negb (Reqb (coeff0 u) (coeff0 w) && Reqb (coeff1 u) (coeff1 w)).

(** ** The reference kernels kept in the header

    The header keeps, commented out, the free functions that the classes
    [FundamentalSolution] and [Psi] replaced (lines 52-70 and 185-247).  They
    are translated here statement by statement, with their fixed centre
    [half]. *)
Module Reference.

(* double G(Eigen::Vector2d x, Eigen::Vector2d y) *)
Definition G (x y : Vector2d) : result R :=
  LF_ASSERT_MSG (vneq x y) "G not defined for these coordinates!" ;;;
  let res := (-1 / (2 * PI)) * ln (norm (x - y)%vec) in
  Ok res.

(* Eigen::Vector2d gradG(Eigen::Vector2d x, Eigen::Vector2d y) *)
Definition gradG (x y : Vector2d) : result Vector2d :=
  LF_ASSERT_MSG (vneq x y) "G not defined for these coordinates!" ;;;
  let res := ((x - y) /: (2 * PI * squaredNorm (x - y)%vec))%vec in
  Ok res.

Definition half : Vector2d := Vec2 0.5 0.5.

(* double Psi(const Eigen::Vector2d y) *)
Definition Psi (y : Vector2d) : R :=
  let constant := PI / (0.5 * sqrt 2 - 1) in
  let dist := norm (y - half)%vec in
  if Rle_dec dist (0.25 * sqrt 2) then 0
  else if Rge_dec dist 0.5 then 1
  else cos (constant * (dist - 0.5)) ^ 2.

(* Eigen::Vector2d gradPsi(const Eigen::Vector2d y) *)
Definition gradPsi (y : Vector2d) : Vector2d :=
  let constant := PI / (0.5 * sqrt 2 - 1) in
  let dist := norm (y - half)%vec in
  if Rle_dec dist (0.25 * sqrt 2) then Vec2 0 0
  else if Rge_dec dist 0.5 then Vec2 0 0
  else ((-2 * cos (constant * (dist - 0.5)) *
         sin (constant * (dist - 0.5)) * (constant / dist)) *: (y - half))%vec.

(* double laplPsi(const Eigen::Vector2d y) *)
Definition laplPsi (y : Vector2d) : R :=
  let constant := PI / (0.5 * sqrt 2 - 1) in
  let dist := norm (y - half)%vec in
  if Rle_dec dist (0.25 * sqrt 2) then 0
  else if Rge_dec dist 0.5 then 0
  else
    (2 * constant ^ 2 / squaredNorm (y - half)%vec) *
      dot (y - half)%vec (y - half)%vec *
      (sin (constant * (dist - 0.5)) ^ 2 -
       cos (constant * (dist - 0.5)) ^ 2) -
    (2 * constant / dist) * cos (constant * (dist - 0.5)) *
      sin (constant * (dist - 0.5)) *
      (1 - dot (y - half)%vec (y - half)%vec / squaredNorm (y - half)%vec).

End Reference.

(** ** class FundamentalSolution *)
Module FundamentalSolution.

Record t : Type := make { x_ : Vector2d }.

(** Modelled from the spec: the body of [operator()] is in
    stableevaluationatapoint.cc, which is not among the sources; the header
    only declares it.  Section 4.1 gives the value -(1/2pi) log |x - y|, with
    evaluation at y = x rejected by an assertion; this is the reference [G]
    of the header with the member [x_] in place of the argument [x]. *)
Definition eval (G : t) (y : Vector2d) : result R :=
  LF_ASSERT_MSG (vneq (x_ G) y) "G not defined for these coordinates!" ;;;
  Ok ((-1 / (2 * PI)) * ln (norm (x_ G - y)%vec)).

(** Modelled from the spec: the body of [grad] is in
    stableevaluationatapoint.cc as well.  Section 4.1 gives the gradient
    (x - y) / (2 pi |x - y|^2) under the same precondition; this is the
    reference [gradG] of the header with the member [x_]. *)
Definition grad (G : t) (y : Vector2d) : result Vector2d :=
  LF_ASSERT_MSG (vneq (x_ G) y) "G not defined for these coordinates!" ;;;
  Ok ((x_ G - y) /: (2 * PI * squaredNorm (x_ G - y)%vec))%vec.

End FundamentalSolution.

(** ** class Psi *)
Module Psi.

Record t : Type := make { center_ : Vector2d }.

(** The default member initialiser [center_ = Eigen::Vector2d(0.5,0.5)]. *)
Definition default_center : Vector2d := Vec2 0.5 0.5.

(** [const double constant = M_PI / (0.5 * std::sqrt(2) - 1.0)]. *)
Definition constant : R := PI / (0.5 * sqrt 2 - 1).

(** Modelled from the spec: the body of [operator()] is in
    stableevaluationatapoint.cc, which is not among the sources; the header
    only declares it.  Section 4.1 gives the three regions: 0 for
    d <= 0.25 sqrt 2, 1 for d >= 0.5 and cos^2 (c (d - 0.5)) in between.
    This is the reference [Psi] of the header with the member [center_]
    where the reference has [half]. *)
Definition eval (psi : t) (y : Vector2d) : R :=
  let dist := norm (y - center_ psi)%vec in
  if Rle_dec dist (0.25 * sqrt 2) then 0
  else if Rge_dec dist 0.5 then 1
  else cos (constant * (dist - 0.5)) ^ 2.

(** Modelled from the spec: the body of [grad] is in
    stableevaluationatapoint.cc.  Section 4.1 gives (0,0) outside the
    transition region and -2 cos sin (c/d) (y - center) inside; this is the
    reference [gradPsi] of the header with [center_] for [half]. *)
Definition grad (psi : t) (y : Vector2d) : Vector2d :=
  let dist := norm (y - center_ psi)%vec in
  if Rle_dec dist (0.25 * sqrt 2) then Vec2 0 0
  else if Rge_dec dist 0.5 then Vec2 0 0
  else ((-2 * cos (constant * (dist - 0.5)) *
         sin (constant * (dist - 0.5)) * (constant / dist))
        *: (y - center_ psi))%vec.

(** Modelled from the spec: the body of [lapl] is in
    stableevaluationatapoint.cc, which is not among the sources.  Section
    4.1 gives 0 outside the transition region and, inside, the closed form
    of the second derivatives that combines the radial curvature term
    f''(d) and the transverse curvature term f'(d)/d of the profile
    f(d) = cos^2 (c (d - 0.5)):
    f''(d) = 2 c^2 (sin^2 - cos^2), f'(d)/d = - (2 c / d) cos sin. *)
Definition lapl (psi : t) (y : Vector2d) : R :=
  let dist := norm (y - center_ psi)%vec in
  if Rle_dec dist (0.25 * sqrt 2) then 0
  else if Rge_dec dist 0.5 then 0
  else
    2 * constant ^ 2 *
      (sin (constant * (dist - 0.5)) ^ 2 -
       cos (constant * (dist - 0.5)) ^ 2) -
    (2 * constant / dist) * cos (constant * (dist - 0.5)) *
      sin (constant * (dist - 0.5)).

End Psi.

(** ** The mesh collaborator (LehrFEM++) *)

(** The 2x2 matrix [lf::geometry::Corners] returns for an edge: one corner
    per column. *)
Record Matrix2d : Type := Mat2 { col0 : Vector2d; col1 : Vector2d }.

Definition col (M : Matrix2d) (j : nat) : Vector2d :=
  match j with
  | O => col0 M
  | S _ => col1 M
  end.

(** What the header uses of [lf::mesh] and [lf::geometry]. *)
Class MeshProvider : Type := {
  Mesh : Type;
  Entity : Type;
  Geometry : Type;
  (* mesh->Entities(codim) *)
  Entities : Mesh -> nat -> list Entity;
  (* lf::mesh::utils::flagEntitiesOnBoundary(mesh, codim) *)
  flagEntitiesOnBoundary : Mesh -> nat -> Entity -> bool;
  (* e->Geometry(), [None] for a null pointer *)
  EntityGeometry : Entity -> option Geometry;
  (* lf::geometry::Corners(geo) *)
  Corners : Geometry -> Matrix2d;
  (* lf::geometry::Volume(geo) *)
  Volume : Geometry -> R
}.

(** A [for] loop over a container whose body may abort. *)
Fixpoint for_each {A S : Type} (l : list A) (body : S -> A -> result S)
    (s : S) : result S :=
  match l with
  | [] => Ok s
  | a :: l' => s' <- body s a ;; for_each l' body s'
  end.

(** [LF_ASSERT_MSG (p != nullptr, msg)] followed by the use of [*p]. *)
Definition assert_nonnull {A : Type} (p : option A) (msg : string) : result A :=
  match p with
  | Some a => Ok a
  | None => Abort (AssertFailed msg)
  end.

Section BoundaryPotentials.

Context {MP : MeshProvider}.

(** [OuterNormalUnitSquare] is declared in the header and defined in
    stableevaluationatapoint.cc; [PDL] receives it as a parameter. *)
Variable OuterNormalUnitSquare : Vector2d -> Vector2d.

(** The preprocessor symbol [SOLUTION] that guards the loop of [PSL] and
    [PDL]; without it the functions return their initial value. *)
Variable SOLUTION : bool.

(** Midpoint of an edge, [0.5 * (corners.col(0) + corners.col(1))]. *)
Definition edge_midpoint (corners : Matrix2d) : Vector2d :=
  (0.5 *: (col corners 0 + col corners 1))%vec.

(* template <typename FUNCTOR>
   double PSL(std::shared_ptr<const lf::mesh::Mesh> mesh, FUNCTOR &&v,
              const Eigen::Vector2d x) *)
Definition PSL (mesh : Mesh) (v : Vector2d -> R) (x : Vector2d) : result R :=
  let PSLval := 0 in
  let G := FundamentalSolution.make x in
  if SOLUTION then
    let bd_flags_edge := flagEntitiesOnBoundary mesh 1 in
    for_each (Entities mesh 1)
      (fun PSLval e =>
         if bd_flags_edge e then
           geo <- assert_nonnull (EntityGeometry e) "Missing geometry!" ;;
           let corners := Corners geo in
           let midpoint := edge_midpoint corners in
           Gm <- FundamentalSolution.eval G midpoint ;;
           Ok (PSLval + v midpoint * Gm * Volume geo)
         else Ok PSLval)
      PSLval
  else Ok PSLval.

(* template <typename FUNCTOR>
   double PDL(std::shared_ptr<const lf::mesh::Mesh> mesh, FUNCTOR &&v,
              const Eigen::Vector2d x) *)
Definition PDL (mesh : Mesh) (v : Vector2d -> R) (x : Vector2d) : result R :=
  let PDLval := 0 in
  let G := FundamentalSolution.make x in
  if SOLUTION then
    let bd_flags_edge := flagEntitiesOnBoundary mesh 1 in
    for_each (Entities mesh 1)
      (fun PDLval e =>
         if bd_flags_edge e then
           geo <- assert_nonnull (EntityGeometry e) "Missing geometry!" ;;
           let corners := Corners geo in
           let midpoint := edge_midpoint corners in
           let n := OuterNormalUnitSquare midpoint in
           gradGm <- FundamentalSolution.grad G midpoint ;;
           Ok (PDLval + v midpoint * dot gradGm n * Volume geo)
         else Ok PDLval)
      PDLval
  else Ok PDLval.

End BoundaryPotentials.

(** ** The finite element collaborators (LehrFEM++ and Eigen) *)

(** [Eigen::VectorXd]. *)
Definition VectorXd : Type := list R.

(* phi.setZero() on a vector of size n *)
Definition setZero (n : nat) : VectorXd := repeat 0 n.

(** [Eigen::ComputationInfo]. *)
Inductive ComputationInfo : Type :=
| Success
| NumericalIssue
| NoConvergence
| InvalidInput.

Definition ComputationInfo_eqb (a b : ComputationInfo) : bool :=
  match a, b with
  | Success, Success
  | NumericalIssue, NumericalIssue
  | NoConvergence, NoConvergence
  | InvalidInput, InvalidInput => true
  | _, _ => false
  end.

(** What [SolveBVP] uses of [lf::uscalfe], [lf::fe], [lf::assemble] and of
    Eigen's sparse module.  Operations that update an argument in place
    return the updated value. *)
Class FEServices {MP : MeshProvider} : Type := {
  FeSpace : Type;
  DofHandler : Type;
  ReferenceFiniteElement : Type;
  COOMatrix : Type;
  SparseMatrix : Type;
  SparseLU : Type;
  ElementMatrixProvider : Type;
  ElementVectorProvider : Type;
  (* fe_space_p->Mesh() *)
  FeSpaceMesh : FeSpace -> Mesh;
  (* fe_space_p->LocGlobMap() *)
  LocGlobMap : FeSpace -> DofHandler;
  (* dofh.NumDofs() *)
  NumDofs : DofHandler -> nat;
  (* fe_space_p->ShapeFunctionLayout(lf::base::RefEl::kSegment()) *)
  ShapeFunctionLayout_kSegment : FeSpace -> ReferenceFiniteElement;
  (* lf::assemble::COOMatrix<double> A(rows, cols) *)
  COOMatrix_new : nat -> nat -> COOMatrix;
  (* lf::uscalfe::LinearFELaplaceElementMatrix elmat_builder{} *)
  LinearFELaplaceElementMatrix : ElementMatrixProvider;
  (* lf::assemble::AssembleMatrixLocally(codim, dofh, dofh, builder, A) *)
  AssembleMatrixLocally :
    nat -> DofHandler -> DofHandler -> ElementMatrixProvider ->
    COOMatrix -> COOMatrix;
  (* lf::uscalfe::ScalarLoadElementVectorProvider(fe_space_p, mf_f) *)
  ScalarLoadElementVectorProvider :
    FeSpace -> (Vector2d -> R) -> ElementVectorProvider;
  (* AssembleVectorLocally(codim, dofh, builder, phi) *)
  AssembleVectorLocally :
    nat -> DofHandler -> ElementVectorProvider -> VectorXd -> VectorXd;
  (* lf::fe::InitEssentialConditionFromFunction(fe_space, bd_flags, mf_g) *)
  InitEssentialConditionFromFunction :
    FeSpace -> (Entity -> bool) -> (Vector2d -> R) -> list (bool * R);
  (* lf::assemble::FixFlaggedSolutionCompAlt<double>(selector, A, phi) *)
  FixFlaggedSolutionCompAlt :
    (nat -> bool * R) -> COOMatrix -> VectorXd -> COOMatrix * VectorXd;
  (* A.makeSparse() *)
  makeSparse : COOMatrix -> SparseMatrix;
  (* the solver after solver.compute(A_sparse) *)
  SparseLU_compute : SparseMatrix -> SparseLU;
  (* solver.info() *)
  SparseLU_info : SparseLU -> ComputationInfo;
  (* solver.solve(phi): the vector and the solver afterwards *)
  SparseLU_solve : SparseLU -> VectorXd -> VectorXd * SparseLU
}.

Section EllipticSolver.

Context {MP : MeshProvider} {FE : FEServices}.

(* template <typename FUNCTOR>
   Eigen::VectorXd SolveBVP(
     const std::shared_ptr<lf::uscalfe::FeSpaceLagrangeO1<double>> &fe_space_p,
     FUNCTOR &&u) *)
Definition SolveBVP (fe_space_p : FeSpace) (u : Vector2d -> R)
    : result VectorXd :=
  (* TOOLS AND DATA *)
  let mesh_p := FeSpaceMesh fe_space_p in
  let dofh := LocGlobMap fe_space_p in
  let N_dofs := NumDofs dofh in
  let rsf_edge_p := ShapeFunctionLayout_kSegment fe_space_p in
  let mf_g := fun x : Vector2d => u x in
  let mf_f := fun x : Vector2d => 0 in
  (* I : ASSEMBLY *)
  let A := COOMatrix_new N_dofs N_dofs in
  let phi := setZero N_dofs in
  let elmat_builder := LinearFELaplaceElementMatrix in
  let A := AssembleMatrixLocally 0 dofh dofh elmat_builder A in
  let elvec_builder := ScalarLoadElementVectorProvider fe_space_p mf_f in
  let phi := AssembleVectorLocally 0 dofh elvec_builder phi in
  let bd_flags := flagEntitiesOnBoundary mesh_p 1 in
  let edges_flag_values_Dirichlet :=
    InitEssentialConditionFromFunction fe_space_p bd_flags mf_g in
  let '(A, phi) :=
    FixFlaggedSolutionCompAlt
      (fun gdof_idx => nth gdof_idx edges_flag_values_Dirichlet (false, 0))
      A phi in
  let A_sparse := makeSparse A in
  (* II : SOLVING THE LINEAR SYSTEM *)
  let solver := SparseLU_compute A_sparse in
  LF_VERIFY_MSG (ComputationInfo_eqb (SparseLU_info solver) Success)
    "LU decomposition failed" ;;;
  let '(discrete_solution, solver) := SparseLU_solve solver phi in
  LF_VERIFY_MSG (ComputationInfo_eqb (SparseLU_info solver) Success)
    "Solving LSE failed" ;;;
  Ok discrete_solution.

(** *** Names for the intermediate values of [SolveBVP] *)

(** The right-hand side after step I.ii. *)
Definition load_vector (fe_space_p : FeSpace) : VectorXd :=
  let dofh := LocGlobMap fe_space_p in
  AssembleVectorLocally 0 dofh
    (ScalarLoadElementVectorProvider fe_space_p (fun _ => 0))
    (setZero (NumDofs dofh)).

(** The Galerkin matrix after step I.i. *)
Definition Galerkin_matrix (fe_space_p : FeSpace) : COOMatrix :=
  let dofh := LocGlobMap fe_space_p in
  AssembleMatrixLocally 0 dofh dofh LinearFELaplaceElementMatrix
    (COOMatrix_new (NumDofs dofh) (NumDofs dofh)).

(** The flags and values of step I.iii. *)
Definition Dirichlet_flags_values (fe_space_p : FeSpace)
    (u : Vector2d -> R) : list (bool * R) :=
  InitEssentialConditionFromFunction fe_space_p
    (flagEntitiesOnBoundary (FeSpaceMesh fe_space_p) 1) (fun x => u x).

(** Matrix and right-hand side after the elimination of step I.iii. *)
Definition eliminated_system (fe_space_p : FeSpace) (u : Vector2d -> R)
    : COOMatrix * VectorXd :=
  FixFlaggedSolutionCompAlt
    (fun gdof_idx => nth gdof_idx (Dirichlet_flags_values fe_space_p u)
                       (false, 0))
    (Galerkin_matrix fe_space_p) (load_vector fe_space_p).

(** The solver after [compute], and what [solve] then returns. *)
Definition factorization (fe_space_p : FeSpace) (u : Vector2d -> R)
    : SparseLU :=
  SparseLU_compute (makeSparse (fst (eliminated_system fe_space_p u))).

Definition solve_outcome (fe_space_p : FeSpace) (u : Vector2d -> R)
    : VectorXd * SparseLU :=
  SparseLU_solve (factorization fe_space_p u)
    (snd (eliminated_system fe_space_p u)).

End EllipticSolver.


(** * Vocabulary of the statements *)

(** ** Midpoint sums and meshes of the unit square *)

(** The kernel values away from the singular point. *)
Definition G_x (x y : Vector2d) : R :=
  - (1 / (2 * PI)) * ln (norm (x - y)%vec).

Definition gradG_x (x y : Vector2d) : Vector2d :=
  ((x - y) /: (2 * PI * norm (x - y)%vec ^ 2))%vec.

Definition Rsum (l : list R) : R := fold_right Rplus 0 l.

Section MeshVocabulary.

Context {MP : MeshProvider}.

(** The edges the mesh provider flags as lying on the boundary. *)
Definition boundary_edges (mesh : Mesh) : list Entity :=
  filter (flagEntitiesOnBoundary mesh 1) (Entities mesh 1).

(** The geometries of a list of edges (edges without one are skipped). *)
Definition geometries (es : list Entity) : list Geometry :=
  flat_map (fun e => match EntityGeometry e with
                     | Some geo => [geo]
                     | None => []
                     end) es.

Definition midpoint_of (geo : Geometry) : Vector2d :=
  edge_midpoint (Corners geo).

(** Every boundary edge has a geometry, and no midpoint of a boundary edge
    is the evaluation point. *)
Definition regular_at (mesh : Mesh) (x : Vector2d) : Prop :=
  forall e, In e (boundary_edges mesh) ->
    exists geo, EntityGeometry e = Some geo /\ midpoint_of geo <> x.

(** A point of the boundary of the unit square. *)
Definition on_unit_square_boundary (m : Vector2d) : Prop :=
  0 <= coeff0 m <= 1 /\ 0 <= coeff1 m <= 1 /\
  (coeff0 m = 0 \/ coeff0 m = 1 \/ coeff1 m = 0 \/ coeff1 m = 1).

(** The mesh is one of the unit square, as far as its boundary edges go:
    each has a geometry and its midpoint lies on the boundary of the
    square. *)
Definition unit_square_boundary (mesh : Mesh) : Prop :=
  forall e, In e (boundary_edges mesh) ->
    exists geo, EntityGeometry e = Some geo /\
                on_unit_square_boundary (midpoint_of geo).

(** A point strictly inside the unit square. *)
Definition interior (x : Vector2d) : Prop :=
  0 < coeff0 x < 1 /\ 0 < coeff1 x < 1.

(** The midpoint sums of the two potentials. *)
Definition PSL_sum (mesh : Mesh) (v : Vector2d -> R) (x : Vector2d) : R :=
  Rsum (map (fun geo => v (midpoint_of geo) * G_x x (midpoint_of geo) *
                        Volume geo)
            (geometries (boundary_edges mesh))).

Definition PDL_sum (n : Vector2d -> Vector2d) (mesh : Mesh)
    (v : Vector2d -> R) (x : Vector2d) : R :=
  Rsum (map (fun geo => v (midpoint_of geo) *
                        dot (gradG_x x (midpoint_of geo)) (n (midpoint_of geo)) *
                        Volume geo)
            (geometries (boundary_edges mesh))).

End MeshVocabulary.

(** ** The radial profile of the transition region

    Between the two radii [Psi] is the radial function f (|y - center|) with
    f (d) = cos^2 (c (d - 0.5)).  [profile'] and [profile''] are its first and
    second derivative; the Laplacian of a radial function of the plane is
    f'' (d) + f' (d) / d. *)
Definition profile (d : R) : R := cos (Psi.constant * (d - 0.5)) ^ 2.

Definition profile' (d : R) : R :=
  -2 * Psi.constant * cos (Psi.constant * (d - 0.5)) *
    sin (Psi.constant * (d - 0.5)).

Definition profile'' (d : R) : R :=
  2 * Psi.constant ^ 2 *
    (sin (Psi.constant * (d - 0.5)) ^ 2 - cos (Psi.constant * (d - 0.5)) ^ 2).

Definition radial_laplacian (d : R) : R := profile'' d + profile' d / d.

(** ** The Laplacian of a scalar field of the plane

    [has_laplacian F y L]: along both coordinate lines through [y] the field
    has a partial derivative near [y], these partial derivatives are
    themselves differentiable at [y], and [L] is the sum of the two second
    partial derivatives. *)
Definition slice0 (F : Vector2d -> R) (y : Vector2d) : R -> R :=
  fun t => F (Vec2 t (coeff1 y)).

Definition slice1 (F : Vector2d -> R) (y : Vector2d) : R -> R :=
  fun t => F (Vec2 (coeff0 y) t).

Definition has_laplacian (F : Vector2d -> R) (y : Vector2d) (L : R) : Prop :=
  exists (D0 D1 : R -> R) (l0 l1 delta : R),
    0 < delta /\
    (forall t, Rabs (t - coeff0 y) < delta ->
       derivable_pt_lim (slice0 F y) t (D0 t)) /\
    (forall t, Rabs (t - coeff1 y) < delta ->
       derivable_pt_lim (slice1 F y) t (D1 t)) /\
    derivable_pt_lim D0 (coeff0 y) l0 /\
    derivable_pt_lim D1 (coeff1 y) l1 /\
    L = l0 + l1.

(** Distance to the point (a, 0) from the point (t, b): the distance to the
    centre along a coordinate line. *)
Definition rho (a b t : R) : R := sqrt ((t - a) * (t - a) + b * b).

(** ** What the collaborators promise

    The contracts are stated with three notions the header does not call
    itself: where the node of a degree of freedom lies, whether a degree of
    freedom sits on a boundary edge, and the product of a sparse matrix with
    a vector. *)
Class FEGeometry {MP : MeshProvider} {FE : FEServices} : Type := {
  (* the node of global degree of freedom k (first-order Lagrange space) *)
  dof_node : FeSpace -> nat -> Vector2d;
  (* degree of freedom k belongs to an edge flagged as boundary *)
  dof_on_boundary : FeSpace -> nat -> bool;
  (* Eigen's A * x *)
  mult : SparseMatrix -> VectorXd -> VectorXd
}.

(** The documented behaviour of the LehrFEM++ and Eigen calls of [SolveBVP],
    in exact arithmetic. *)
Class FEContracts {MP : MeshProvider} {FE : FEServices} {FG : FEGeometry}
    : Prop := {
  (* the element vectors of a source that vanishes add nothing to phi *)
  load_of_zero_source :
    forall (fe : FeSpace) (dofh : DofHandler) (f : Vector2d -> R)
           (phi : VectorXd),
      (forall x, f x = 0) ->
      AssembleVectorLocally 0 dofh
        (ScalarLoadElementVectorProvider fe f) phi = phi;
  (* a degree of freedom is flagged exactly when it is on the boundary, and
     its value is the function sampled at its node *)
  essential_conditions_sample :
    forall (fe : FeSpace) (g : Vector2d -> R) (k : nat),
      (k < NumDofs (LocGlobMap fe))%nat ->
      let fv := nth k (InitEssentialConditionFromFunction fe
                         (flagEntitiesOnBoundary (FeSpaceMesh fe) 1) g)
                      (false, 0) in
      fst fv = dof_on_boundary fe k /\
      (dof_on_boundary fe k = true -> snd fv = g (dof_node fe k));
  (* the elimination keeps the size of the right-hand side ... *)
  elimination_keeps_size :
    forall (sel : nat -> bool * R) (A : COOMatrix) (b : VectorXd),
      length (snd (FixFlaggedSolutionCompAlt sel A b)) = length b;
  (* ... and turns the equation of a selected component k into x_k = value *)
  elimination_fixes_component :
    forall (sel : nat -> bool * R) (A : COOMatrix) (b : VectorXd) (k : nat),
      (k < length b)%nat ->
      fst (sel k) = true ->
      nth k (snd (FixFlaggedSolutionCompAlt sel A b)) 0 = snd (sel k) /\
      forall x : VectorXd,
        length x = length b ->
        nth k (mult (makeSparse (fst (FixFlaggedSolutionCompAlt sel A b))) x) 0
          = nth k x 0;
  (* a solve that reports success returns a solution of the system *)
  solve_exact :
    forall (M : SparseMatrix) (b : VectorXd),
      SparseLU_info (SparseLU_compute M) = Success ->
      SparseLU_info (snd (SparseLU_solve (SparseLU_compute M) b)) = Success ->
      mult M (fst (SparseLU_solve (SparseLU_compute M) b)) = b /\
      length (fst (SparseLU_solve (SparseLU_compute M) b)) = length b
}.

(** * Concrete providers *)

(** ** A mesh provider: edges held in a list

    The smallest provider that has everything [PSL] and [PDL] ask for: a mesh
    is the list of its edges, an edge carries its boundary flag and, when it
    has a geometry, its two corners; the volume of an edge is its length. *)
Module ListMesh.

Record Edge : Type := mkEdge {
  edge_corners : option Matrix2d;
  edge_on_boundary : bool
}.

Definition provider : MeshProvider := {|
  Mesh := list Edge;
  Entity := Edge;
  Geometry := Matrix2d;
  Entities := fun mesh codim =>
    match codim with
    | 1%nat => mesh
    | _ => []
    end;
  flagEntitiesOnBoundary := fun _ _ e => edge_on_boundary e;
  EntityGeometry := edge_corners;
  Corners := fun geo => geo;
  Volume := fun geo => norm (col geo 1 - col geo 0)%vec
|}.

Definition segment (a b : Vector2d) (on_boundary : bool) : Edge :=
  mkEdge (Some (Mat2 a b)) on_boundary.

(** The unit square cut into two triangles by the diagonal: four boundary
    edges and one interior edge. *)
Definition unit_square : list Edge :=
  [ segment (Vec2 0 0) (Vec2 1 0) true;
    segment (Vec2 1 0) (Vec2 1 1) true;
    segment (Vec2 0 0) (Vec2 1 1) false;
    segment (Vec2 1 1) (Vec2 0 1) true;
    segment (Vec2 0 1) (Vec2 0 0) true ].

(** The unit square cut into four triangles by its two diagonals: four
    boundary edges and the four interior edges that meet in the centre. *)
Definition crossed_square : list Edge :=
  [ segment (Vec2 0 0) (Vec2 1 0) true;
    segment (Vec2 1 0) (Vec2 1 1) true;
    segment (Vec2 1 1) (Vec2 0 1) true;
    segment (Vec2 0 1) (Vec2 0 0) true;
    segment (Vec2 0 0) (Vec2 0.5 0.5) false;
    segment (Vec2 1 0) (Vec2 0.5 0.5) false;
    segment (Vec2 1 1) (Vec2 0.5 0.5) false;
    segment (Vec2 0 1) (Vec2 0.5 0.5) false ].

(** An outward normal of the unit square, chosen by the side the point is
    on; it stands for [OuterNormalUnitSquare] in examples. *)
Definition normal (m : Vector2d) : Vector2d :=
  if Req_dec_T (coeff1 m) 0 then Vec2 0 (-1)
  else if Req_dec_T (coeff0 m) 1 then Vec2 1 0
  else if Req_dec_T (coeff1 m) 1 then Vec2 0 1
  else Vec2 (-1) 0.

End ListMesh.

(** ** A finite element provider over the list mesh

    A space lists its nodes, each with its position and whether it lies on
    the boundary, and the triplets its cells contribute to the Galerkin
    matrix.  Matrices are kept in triplet format, triplets of the same
    position add up.  The direct solver handles the systems in which every
    row either is a unit row, x_k = b_k, or has a diagonal entry other than
    zero and couples x_k to unknowns of unit rows only; this is what the
    elimination leaves when no two interior nodes share a cell.  On any
    other matrix the factorisation reports a numerical issue. *)
Module ListFE.

Definition Triplet : Type := (nat * nat * R)%type.
Definition triplet (i j : nat) (v : R) : Triplet := (i, j, v).
Definition trow (t : Triplet) : nat := fst (fst t).
Definition tcol (t : Triplet) : nat := snd (fst t).
Definition tval (t : Triplet) : R := snd t.

Record COO : Type := mkCOO {
  coo_rows : nat;
  coo_cols : nat;
  coo_triplets : list Triplet
}.

Record Space : Type := mkSpace {
  space_mesh : list ListMesh.Edge;
  space_nodes : list (Vector2d * bool);
  space_stiffness : list Triplet
}.

Definition add_triplets (ts : list Triplet) (A : COO) : COO :=
  mkCOO (coo_rows A) (coo_cols A) (coo_triplets A ++ ts).

Definition sample (g : Vector2d -> R) (node : Vector2d * bool) : bool * R :=
  (snd node, if snd node then g (fst node) else 0).

(** Rows of selected components are cleared and get a unit diagonal;
    the right-hand side, of size [N], takes the selected values. *)
Definition fix_rows (sel : nat -> bool * R) (N : nat) (A : COO) : COO :=
  mkCOO (coo_rows A) (coo_cols A)
    (filter (fun t => negb (fst (sel (trow t)))) (coo_triplets A) ++
     map (fun k => triplet k k 1)
         (filter (fun k => fst (sel k)) (seq 0 N))).

Fixpoint fix_rhs (sel : nat -> bool * R) (k : nat) (b : VectorXd)
    : VectorXd :=
  match b with
  | [] => []
  | bk :: b' =>
      (if fst (sel k) then snd (sel k) else bk) :: fix_rhs sel (S k) b'
  end.

(** The triplets of row [k] in a list. *)
Definition row (k : nat) (ts : list Triplet) : list Triplet :=
  filter (fun t => Nat.eqb (trow t) k) ts.

Definition row_times (ts : list Triplet) (x : VectorXd) (i : nat) : R :=
  Rsum (map (fun t => tval t * nth (tcol t) x 0) (row i ts)).

Definition times (M : COO) (x : VectorXd) : VectorXd :=
  map (row_times (coo_triplets M) x) (seq 0 (length x)).

(** Row [k] holds the single triplet (k, k, 1). *)
Definition is_unit_row (ts : list Triplet) (k : nat) : bool :=
  match row k ts with
  | [t] => Nat.eqb (tcol t) k && Reqb (tval t) 1
  | _ => false
  end.

(** The diagonal entry of row [k] and the triplets of row [k] off the
    diagonal. *)
Definition diagonal (ts : list Triplet) (k : nat) : R :=
  Rsum (map tval (filter (fun t => Nat.eqb (tcol t) k) (row k ts))).

Definition off_diagonal (ts : list Triplet) (k : nat) : list Triplet :=
  filter (fun t => negb (Nat.eqb (tcol t) k)) (row k ts).

(** Row [k] gives x_k once the unknowns of the unit rows are known. *)
Definition row_solvable (ts : list Triplet) (k : nat) : bool :=
  is_unit_row ts k ||
  (negb (Reqb (diagonal ts k) 0) &&
   forallb (fun t => is_unit_row ts (tcol t)) (off_diagonal ts k)).

Definition solvable (M : COO) : bool :=
  forallb (row_solvable (coo_triplets M)) (seq 0 (coo_rows M)).

Definition solve_row (ts : list Triplet) (b : VectorXd) (k : nat) : R :=
  if is_unit_row ts k then nth k b 0
  else
    (nth k b 0 -
     Rsum (map (fun t => tval t * nth (tcol t) b 0) (off_diagonal ts k))) /
    diagonal ts k.

Definition solve (M : COO) (b : VectorXd) : VectorXd :=
  map (solve_row (coo_triplets M) b) (seq 0 (length b)).

(** [after_solve] is what [info ()] reports after a call of [solve] on a
    factorised matrix. *)
Definition services (after_solve : ComputationInfo)
    : FEServices (MP := ListMesh.provider) := {|
  FeSpace := Space;
  DofHandler := Space;
  ReferenceFiniteElement := unit;
  COOMatrix := COO;
  SparseMatrix := COO;
  SparseLU := COO * ComputationInfo;
  ElementMatrixProvider := unit;
  ElementVectorProvider := Vector2d -> R;
  FeSpaceMesh := fun fe => space_mesh fe : @Mesh ListMesh.provider;
  LocGlobMap := fun fe => fe;
  NumDofs := fun dofh => length (space_nodes dofh);
  ShapeFunctionLayout_kSegment := fun _ => tt;
  COOMatrix_new := fun r c => mkCOO r c [];
  LinearFELaplaceElementMatrix := tt;
  AssembleMatrixLocally := fun _ dofh _ _ A =>
    add_triplets (space_stiffness dofh) A;
  ScalarLoadElementVectorProvider := fun _ f => f;
  AssembleVectorLocally := fun _ _ _ phi => phi;
  InitEssentialConditionFromFunction := fun fe _ g =>
    map (sample g) (space_nodes fe);
  FixFlaggedSolutionCompAlt := fun sel A b =>
    (fix_rows sel (length b) A, fix_rhs sel 0 b);
  makeSparse := fun A => A;
  SparseLU_compute := fun M =>
    (M, if solvable M then Success else NumericalIssue);
  SparseLU_info := snd;
  SparseLU_solve := fun solver b =>
    (solve (fst solver) b,
     (fst solver,
      if Nat.eqb (length b) (coo_rows (fst solver))
      then match snd solver with
           | Success => after_solve
           | failure => failure
           end
      else InvalidInput))
|}.

Definition geometry (after_solve : ComputationInfo)
    : FEGeometry (FE := services after_solve) := {|
  dof_node := fun (fe : @FeSpace _ (services after_solve)) k =>
    fst (nth k (space_nodes fe) (Vec2 0 0, false));
  dof_on_boundary := fun (fe : @FeSpace _ (services after_solve)) k =>
    snd (nth k (space_nodes fe) (Vec2 0 0, false));
  mult := fun (M : @SparseMatrix _ (services after_solve)) x => times M x
|}.

(** The first-order space on the unit square cut by its diagonal: four
    nodes, all on the boundary, and the triplets of the two cells. *)
Definition unit_square : Space :=
  mkSpace ListMesh.unit_square
    [ (Vec2 0 0, true); (Vec2 1 0, true); (Vec2 1 1, true);
      (Vec2 0 1, true) ]
    [ triplet 0 0 0.5; triplet 0 1 (-0.5); triplet 1 0 (-0.5);
      triplet 1 1 1; triplet 1 2 (-0.5); triplet 2 1 (-0.5);
      triplet 2 2 0.5;
      triplet 0 0 0.5; triplet 0 3 (-0.5); triplet 3 0 (-0.5);
      triplet 3 3 1; triplet 3 2 (-0.5); triplet 2 3 (-0.5);
      triplet 2 2 0.5 ].

(** The same square with a fifth node that belongs to no cell and is not
    on the boundary: its row of the Galerkin matrix is empty and stays so
    after the elimination, the system is singular. *)
Definition square_with_loose_node : Space :=
  mkSpace ListMesh.unit_square
    [ (Vec2 0 0, true); (Vec2 1 0, true); (Vec2 1 1, true);
      (Vec2 0 1, true); (Vec2 0.5 0.5, false) ]
    (space_stiffness unit_square).

(** The first-order space on the unit square cut by its two diagonals:
    the four corners, on the boundary, and the centre, in the interior.
    Each of the four cells has its right angle at the centre, node 4. *)
Definition square_with_centre : Space :=
  mkSpace ListMesh.crossed_square
    [ (Vec2 0 0, true); (Vec2 1 0, true); (Vec2 1 1, true);
      (Vec2 0 1, true); (Vec2 0.5 0.5, false) ]
    [ triplet 0 0 0.5; triplet 0 4 (-0.5); triplet 4 0 (-0.5);
      triplet 1 1 0.5; triplet 1 4 (-0.5); triplet 4 1 (-0.5);
      triplet 4 4 1;
      triplet 1 1 0.5; triplet 1 4 (-0.5); triplet 4 1 (-0.5);
      triplet 2 2 0.5; triplet 2 4 (-0.5); triplet 4 2 (-0.5);
      triplet 4 4 1;
      triplet 2 2 0.5; triplet 2 4 (-0.5); triplet 4 2 (-0.5);
      triplet 3 3 0.5; triplet 3 4 (-0.5); triplet 4 3 (-0.5);
      triplet 4 4 1;
      triplet 3 3 0.5; triplet 3 4 (-0.5); triplet 4 3 (-0.5);
      triplet 0 0 0.5; triplet 0 4 (-0.5); triplet 4 0 (-0.5);
      triplet 4 4 1 ].

End ListFE.

(** ** Outcomes that fail alike

    Two outcomes, possibly of different types, that either both carry a
    value or both stop in the same failed check. *)
Definition same_failure {A B : Type} (ra : result A) (rb : result B) : Prop :=
  match ra, rb with
  | Ok _, Ok _ => True
  | Abort f, Abort g => f = g
  | _, _ => False
  end.

(** * Lemmas and theorems *)

(** ** Vectors *)

Lemma Reqb_true_iff (a b : R) : Reqb a b = true <-> a = b.
Proof.
  unfold Reqb. destruct (Req_dec_T a b); split; intro H; congruence.
Qed.

Lemma Vector2d_ext (u w : Vector2d) :
  coeff0 u = coeff0 w -> coeff1 u = coeff1 w -> u = w.
Proof. destruct u, w; simpl; intros -> ->; reflexivity. Qed.

Lemma vneq_true_iff (u w : Vector2d) : vneq u w = true <-> u <> w.
Proof.
  unfold vneq. rewrite negb_true_iff, andb_false_iff.
  split.
  - intros [H | H] ->; apply not_true_iff_false in H; apply H;
      apply Reqb_true_iff; reflexivity.
  - intros Hne.
    destruct (Reqb (coeff0 u) (coeff0 w)) eqn:E0; [| now left].
    destruct (Reqb (coeff1 u) (coeff1 w)) eqn:E1; [| now right].
    exfalso. apply Hne. apply Vector2d_ext; now apply Reqb_true_iff.
Qed.

Lemma vneq_refl (u : Vector2d) : vneq u u = false.
Proof.
  apply not_true_iff_false. rewrite vneq_true_iff. intros H; now apply H.
Qed.

Lemma vneq_of_neq (u w : Vector2d) : u <> w -> vneq u w = true.
Proof. apply vneq_true_iff. Qed.

Lemma squaredNorm_nonneg (u : Vector2d) : 0 <= squaredNorm u.
Proof. unfold squaredNorm, dot. nra. Qed.

Lemma norm_nonneg (u : Vector2d) : 0 <= norm u.
Proof. apply sqrt_pos. Qed.

Lemma norm_sqr (u : Vector2d) : norm u ^ 2 = squaredNorm u.
Proof.
  unfold norm. simpl. rewrite Rmult_1_r.
  apply sqrt_sqrt, squaredNorm_nonneg.
Qed.

Lemma dot_self (u : Vector2d) : dot u u = norm u ^ 2.
Proof. symmetry. apply norm_sqr. Qed.

(** ** The fundamental solution *)

Lemma eval_is_reference_G (x y : Vector2d) :
  FundamentalSolution.eval (FundamentalSolution.make x) y = Reference.G x y.
Proof. reflexivity. Qed.

Lemma grad_is_reference_gradG (x y : Vector2d) :
  FundamentalSolution.grad (FundamentalSolution.make x) y = Reference.gradG x y.
Proof. reflexivity. Qed.

Lemma eval_away (x y : Vector2d) :
  x <> y ->
  FundamentalSolution.eval (FundamentalSolution.make x) y = Ok (G_x x y).
Proof.
  intros Hne. unfold FundamentalSolution.eval, G_x.
  cbn [FundamentalSolution.x_]. rewrite (vneq_of_neq _ _ Hne).
  unfold LF_ASSERT_MSG, bind. f_equal. field.
  apply PI_neq0.
Qed.

Lemma grad_away (x y : Vector2d) :
  x <> y ->
  FundamentalSolution.grad (FundamentalSolution.make x) y = Ok (gradG_x x y).
Proof.
  intros Hne. unfold FundamentalSolution.grad, gradG_x.
  cbn [FundamentalSolution.x_]. rewrite (vneq_of_neq _ _ Hne).
  unfold LF_ASSERT_MSG, bind. now rewrite norm_sqr.
Qed.

(** C4: away from the singular point the fundamental solution returns
    -(1/(2 pi)) log |x - y| and its gradient (x - y) / (2 pi |x - y|^2); at
    y = x both calls are stopped by the assertion and return no number. *)
Theorem FundamentalSolution_contract (x : Vector2d) :
  (forall y, y <> x ->
     FundamentalSolution.eval (FundamentalSolution.make x) y =
       Ok (- (1 / (2 * PI)) * ln (norm (x - y)%vec)) /\
     FundamentalSolution.grad (FundamentalSolution.make x) y =
       Ok ((x - y) /: (2 * PI * norm (x - y)%vec ^ 2))%vec) /\
  FundamentalSolution.eval (FundamentalSolution.make x) x =
    Abort (AssertFailed "G not defined for these coordinates!") /\
  FundamentalSolution.grad (FundamentalSolution.make x) x =
    Abort (AssertFailed "G not defined for these coordinates!").
Proof.
  split; [| split].
  - intros y Hne. split.
    + apply eval_away. congruence.
    + apply grad_away. congruence.
  - unfold FundamentalSolution.eval. simpl. now rewrite vneq_refl.
  - unfold FundamentalSolution.grad. simpl. now rewrite vneq_refl.
Qed.

Lemma FundamentalSolution_contract_witness :
  FundamentalSolution.eval (FundamentalSolution.make (Vec2 0 0)) (Vec2 1 0) =
    Ok (- (1 / (2 * PI)) * ln (norm (Vec2 0 0 - Vec2 1 0)%vec)) /\
  FundamentalSolution.grad (FundamentalSolution.make (Vec2 0 0)) (Vec2 1 0) =
    Ok ((Vec2 0 0 - Vec2 1 0) /:
        (2 * PI * norm (Vec2 0 0 - Vec2 1 0)%vec ^ 2))%vec.
Proof.
  apply (proj1 (FundamentalSolution_contract (Vec2 0 0)) (Vec2 1 0)).
  intros H. apply (f_equal coeff0) in H. simpl in H. lra.
Defined.

(** ** The bump function *)

Lemma sqrt2_bounds : 1.4 < sqrt 2 < 1.5.
Proof.
  split.
  - rewrite <- (sqrt_square 1.4) by lra. apply sqrt_lt_1_alt. lra.
  - rewrite <- (sqrt_square 1.5) by lra. apply sqrt_lt_1_alt. lra.
Qed.

Lemma radii_ordered : 0 < 0.25 * sqrt 2 < 0.5.
Proof. pose proof sqrt2_bounds. lra. Qed.

Lemma norm_on_axis (a : R) : 0 <= a -> norm (Vec2 a 0 - Vec2 0 0)%vec = a.
Proof.
  intros Ha. unfold norm, squaredNorm, dot. simpl.
  replace ((a - 0) * (a - 0) + (0 - 0) * (0 - 0)) with (a * a) by ring.
  now apply sqrt_square.
Qed.

Lemma Psi_eval_is_reference (y : Vector2d) :
  Psi.eval (Psi.make Psi.default_center) y = Reference.Psi y.
Proof. reflexivity. Qed.

Lemma Psi_grad_is_reference (y : Vector2d) :
  Psi.grad (Psi.make Psi.default_center) y = Reference.gradPsi y.
Proof. reflexivity. Qed.

(** The three regions, one lemma per member function. *)
Section PsiRegions.

Variables center y : Vector2d.
Let d := norm (y - center)%vec.

Lemma Psi_eval_inner : d <= 0.25 * sqrt 2 -> Psi.eval (Psi.make center) y = 0.
Proof.
  intros H. unfold Psi.eval. cbn [Psi.center_]. fold d.
  destruct (Rle_dec d (0.25 * sqrt 2)); [reflexivity | contradiction].
Qed.

Lemma Psi_eval_outer : d >= 0.5 -> Psi.eval (Psi.make center) y = 1.
Proof.
  intros H. unfold Psi.eval. cbn [Psi.center_]. fold d.
  destruct (Rle_dec d (0.25 * sqrt 2)) as [Hle |_].
  - pose proof radii_ordered. lra.
  - destruct (Rge_dec d 0.5); [reflexivity | contradiction].
Qed.

Lemma Psi_eval_transition :
  0.25 * sqrt 2 < d < 0.5 ->
  Psi.eval (Psi.make center) y = cos (Psi.constant * (d - 0.5)) ^ 2.
Proof.
  intros [H1 H2]. unfold Psi.eval. cbn [Psi.center_]. fold d.
  destruct (Rle_dec d (0.25 * sqrt 2)); [lra |].
  destruct (Rge_dec d 0.5); [lra | reflexivity].
Qed.

Lemma Psi_grad_inner :
  d <= 0.25 * sqrt 2 -> Psi.grad (Psi.make center) y = Vec2 0 0.
Proof.
  intros H. unfold Psi.grad. cbn [Psi.center_]. fold d.
  destruct (Rle_dec d (0.25 * sqrt 2)); [reflexivity | contradiction].
Qed.

Lemma Psi_grad_outer : d >= 0.5 -> Psi.grad (Psi.make center) y = Vec2 0 0.
Proof.
  intros H. unfold Psi.grad. cbn [Psi.center_]. fold d.
  destruct (Rle_dec d (0.25 * sqrt 2)); [reflexivity |].
  destruct (Rge_dec d 0.5); [reflexivity | contradiction].
Qed.

Lemma Psi_grad_transition :
  0.25 * sqrt 2 < d < 0.5 ->
  Psi.grad (Psi.make center) y =
    ((-2 * cos (Psi.constant * (d - 0.5)) * sin (Psi.constant * (d - 0.5)) *
      (Psi.constant / d)) *: (y - center))%vec.
Proof.
  intros [H1 H2]. unfold Psi.grad. cbn [Psi.center_]. fold d.
  destruct (Rle_dec d (0.25 * sqrt 2)); [lra |].
  destruct (Rge_dec d 0.5); [lra | reflexivity].
Qed.

Lemma Psi_lapl_transition :
  0.25 * sqrt 2 < d < 0.5 ->
  Psi.lapl (Psi.make center) y = radial_laplacian d.
Proof.
  intros [H1 H2]. unfold Psi.lapl. cbn [Psi.center_]. fold d.
  destruct (Rle_dec d (0.25 * sqrt 2)); [lra |].
  destruct (Rge_dec d 0.5); [lra |].
  pose proof radii_ordered.
  unfold radial_laplacian, profile'', profile'. field. lra.
Qed.

(** The commented-out reference [laplPsi] of the header is another
    expression: its transverse term carries the factor
    1 - (y - half).(y - half) / |y - half|^2, so that in the transition
    region only the radial term f''(d) is left. *)
Lemma Reference_laplPsi_radial_term_only (z : Vector2d) :
  let dz := norm (z - Reference.half)%vec in
  0.25 * sqrt 2 < dz < 0.5 -> Reference.laplPsi z = profile'' dz.
Proof.
  intros dz [H1 H2]. unfold Reference.laplPsi.
  rewrite dot_self. fold (squaredNorm (z - Reference.half)%vec).
  rewrite <- norm_sqr. fold dz.
  destruct (Rle_dec dz (0.25 * sqrt 2)); [lra |].
  destruct (Rge_dec dz 0.5); [lra |].
  pose proof radii_ordered. unfold profile'', Psi.constant. field. lra.
Qed.

End PsiRegions.

(** C5: with d = |y - center|, [Psi] is 0 with zero gradient for
    d <= 0.25 sqrt 2, is 1 with zero gradient for d >= 0.5, and in between is
    cos^2 (c (d - 0.5)) with gradient
    -2 cos (c (d - 0.5)) sin (c (d - 0.5)) (c / d) (y - center), where
    c = pi / (0.5 sqrt 2 - 1). *)
Theorem Psi_three_regions (center y : Vector2d) :
  let d := norm (y - center)%vec in
  let c := PI / (0.5 * sqrt 2 - 1) in
  (d <= 0.25 * sqrt 2 ->
     Psi.eval (Psi.make center) y = 0 /\
     Psi.grad (Psi.make center) y = Vec2 0 0) /\
  (d >= 0.5 ->
     Psi.eval (Psi.make center) y = 1 /\
     Psi.grad (Psi.make center) y = Vec2 0 0) /\
  (0.25 * sqrt 2 < d < 0.5 ->
     Psi.eval (Psi.make center) y = cos (c * (d - 0.5)) ^ 2 /\
     Psi.grad (Psi.make center) y =
       ((-2 * cos (c * (d - 0.5)) * sin (c * (d - 0.5)) * (c / d))
        *: (y - center))%vec).
Proof.
  intros d c. repeat split; intros.
  - now apply Psi_eval_inner.
  - now apply Psi_grad_inner.
  - now apply Psi_eval_outer.
  - now apply Psi_grad_outer.
  - now apply Psi_eval_transition.
  - now apply Psi_grad_transition.
Qed.

Lemma Psi_three_regions_witness :
  (Psi.eval (Psi.make (Vec2 0 0)) (Vec2 0 0) = 0 /\
   Psi.grad (Psi.make (Vec2 0 0)) (Vec2 0 0) = Vec2 0 0) /\
  (Psi.eval (Psi.make (Vec2 0 0)) (Vec2 1 0) = 1 /\
   Psi.grad (Psi.make (Vec2 0 0)) (Vec2 1 0) = Vec2 0 0) /\
  (Psi.eval (Psi.make (Vec2 0 0)) (Vec2 0.4 0) =
     cos (PI / (0.5 * sqrt 2 - 1) *
          (norm (Vec2 0.4 0 - Vec2 0 0)%vec - 0.5)) ^ 2 /\
   Psi.grad (Psi.make (Vec2 0 0)) (Vec2 0.4 0) =
     ((-2 * cos (PI / (0.5 * sqrt 2 - 1) *
                 (norm (Vec2 0.4 0 - Vec2 0 0)%vec - 0.5)) *
       sin (PI / (0.5 * sqrt 2 - 1) *
            (norm (Vec2 0.4 0 - Vec2 0 0)%vec - 0.5)) *
       (PI / (0.5 * sqrt 2 - 1) / norm (Vec2 0.4 0 - Vec2 0 0)%vec))
      *: (Vec2 0.4 0 - Vec2 0 0))%vec).
Proof.
  pose proof sqrt2_bounds as Hs.
  split; [| split].
  - apply (proj1 (Psi_three_regions (Vec2 0 0) (Vec2 0 0))).
    rewrite norm_on_axis; lra.
  - apply (proj1 (proj2 (Psi_three_regions (Vec2 0 0) (Vec2 1 0)))).
    rewrite norm_on_axis; lra.
  - apply (proj2 (proj2 (Psi_three_regions (Vec2 0 0) (Vec2 0.4 0)))).
    rewrite norm_on_axis; lra.
Defined.

(** ** Continuity of the bump function at the two radii *)

(** [field] and [ring] take a decimal literal for an atom; this rewrites the
    two that occur in the header into fractions. *)
Ltac decimals_to_fractions :=
  replace 0.5 with (1 / 2) in * by lra;
  replace 0.25 with (1 / 4) in * by lra.

Lemma constant_bounds : -16 < Psi.constant < -10.
Proof.
  unfold Psi.constant.
  pose proof sqrt2_bounds as [Hs1 Hs2].
  pose proof PI_4 as Hpi4. pose proof PI2_3_2 as Hpi3.
  assert (Hden : 0 < 1 - 0.5 * sqrt 2) by lra.
  replace (PI / (0.5 * sqrt 2 - 1)) with (- (PI / (1 - 0.5 * sqrt 2)))
    by (field; lra).
  assert (H1 : PI / (1 - 0.5 * sqrt 2) < 16).
  { apply Rmult_lt_reg_r with (1 - 0.5 * sqrt 2); [assumption |].
    unfold Rdiv. rewrite Rmult_assoc, Rinv_l by lra. lra. }
  assert (H2 : 10 < PI / (1 - 0.5 * sqrt 2)).
  { apply Rmult_lt_reg_r with (1 - 0.5 * sqrt 2); [assumption |].
    unfold Rdiv. rewrite Rmult_assoc, Rinv_l by lra. lra. }
  lra.
Qed.

(** The phase c (d - 0.5) is pi/2 at the inner radius (and 0 at the outer). *)
Lemma phase_at_inner_radius (d : R) :
  Psi.constant * (d - 0.5) = PI / 2 - (- Psi.constant) * (d - 0.25 * sqrt 2).
Proof.
  unfold Psi.constant. pose proof sqrt2_bounds as [Hs1 Hs2].
  decimals_to_fractions. field. lra.
Qed.

Lemma phase_range (d : R) :
  0.25 * sqrt 2 < d < 0.5 -> 0 < Psi.constant * (d - 0.5) < PI / 2.
Proof.
  intros [H1 H2]. pose proof constant_bounds as [Hc1 Hc2]. split.
  - replace (Psi.constant * (d - 0.5)) with ((- Psi.constant) * (0.5 - d))
      by ring.
    apply Rmult_lt_0_compat; lra.
  - rewrite phase_at_inner_radius.
    assert (0 < (- Psi.constant) * (d - 0.25 * sqrt 2))
      by (apply Rmult_lt_0_compat; lra).
    lra.
Qed.

Lemma cos_phase_small (d : R) :
  0.25 * sqrt 2 < d < 0.5 ->
  0 < cos (Psi.constant * (d - 0.5)) < 16 * (d - 0.25 * sqrt 2).
Proof.
  intros Hd. pose proof (phase_range d Hd) as [Hp1 Hp2].
  pose proof constant_bounds as [Hc1 Hc2]. destruct Hd as [H1 H2]. split.
  - apply cos_gt_0; lra.
  - rewrite phase_at_inner_radius, cos_shift.
    assert (Hu : 0 < (- Psi.constant) * (d - 0.25 * sqrt 2))
      by (apply Rmult_lt_0_compat; lra).
    apply Rlt_trans with ((- Psi.constant) * (d - 0.25 * sqrt 2)).
    + now apply sin_lt_x.
    + apply Rmult_lt_compat_r; lra.
Qed.

Lemma sin_phase_small (d : R) :
  0.25 * sqrt 2 < d < 0.5 ->
  0 < sin (Psi.constant * (d - 0.5)) < 16 * (0.5 - d).
Proof.
  intros Hd. pose proof (phase_range d Hd) as [Hp1 Hp2].
  pose proof constant_bounds as [Hc1 Hc2]. destruct Hd as [H1 H2].
  pose proof PI2_Rlt_PI. split.
  - apply sin_gt_0; lra.
  - apply Rlt_trans with (Psi.constant * (d - 0.5)).
    + now apply sin_lt_x.
    + replace (Psi.constant * (d - 0.5)) with ((- Psi.constant) * (0.5 - d))
        by ring.
      apply Rmult_lt_compat_r; lra.
Qed.

Lemma trig_le_1 (t : R) : 0 < cos t -> 0 < sin t -> cos t <= 1 /\ sin t <= 1.
Proof.
  intros _ _. pose proof (COS_bound t). pose proof (SIN_bound t). lra.
Qed.

Lemma norm_vscale (s : R) (u : Vector2d) :
  norm (s *: u)%vec = Rabs s * norm u.
Proof.
  unfold norm, squaredNorm, dot. simpl.
  replace (s * coeff0 u * (s * coeff0 u) + s * coeff1 u * (s * coeff1 u))
    with (Rsqr s * (coeff0 u * coeff0 u + coeff1 u * coeff1 u))
    by (unfold Rsqr; ring).
  rewrite sqrt_mult_alt by apply Rle_0_sqr.
  now rewrite sqrt_Rsqr_abs.
Qed.

Lemma norm_zero_vector : norm (Vec2 0 0) = 0.
Proof.
  unfold norm, squaredNorm, dot. simpl.
  replace (0 * 0 + 0 * 0) with 0 by ring. apply sqrt_0.
Qed.

(** In the transition region the gradient has length 2 |c| cos sin. *)
Lemma Psi_grad_norm_transition (center y : Vector2d) :
  let d := norm (y - center)%vec in
  0.25 * sqrt 2 < d < 0.5 ->
  norm (Psi.grad (Psi.make center) y) =
    2 * (- Psi.constant) * cos (Psi.constant * (d - 0.5)) *
      sin (Psi.constant * (d - 0.5)).
Proof.
  intros d Hd. rewrite Psi_grad_transition by exact Hd. fold d.
  rewrite norm_vscale. fold d.
  pose proof (cos_phase_small d Hd) as [Hc _].
  pose proof (sin_phase_small d Hd) as [Hs _].
  pose proof constant_bounds as [Hk1 Hk2].
  pose proof radii_ordered as [Hr _]. destruct Hd as [H1 H2].
  set (co := cos (Psi.constant * (d - 0.5))) in *.
  set (si := sin (Psi.constant * (d - 0.5))) in *.
  replace (-2 * co * si * (Psi.constant / d))
    with (2 * (- Psi.constant) * co * si / d) by (field; lra).
  assert (Hpos : 0 < 2 * (- Psi.constant) * co * si / d).
  { apply Rdiv_lt_0_compat; [| lra].
    repeat apply Rmult_lt_0_compat; lra. }
  rewrite Rabs_pos_eq by lra. field. lra.
Qed.

Lemma grad_norm_le_32 (k a b : R) :
  0 < k < 16 -> 0 < a -> 0 < b <= 1 -> 2 * k * a * b <= 32 * a.
Proof.
  intros [Hk0 Hk1] Ha [Hb0 Hb1].
  assert (H0 : 0 < a * b) by (apply Rmult_lt_0_compat; lra).
  assert (H1 : a * b <= a * 1) by (apply Rmult_le_compat_l; lra).
  assert (H2 : k * (a * b) <= 16 * (a * b))
    by (apply Rmult_le_compat_r; lra).
  lra.
Qed.

Lemma Psi_near_inner_radius (center y : Vector2d) (delta : R) :
  let d := norm (y - center)%vec in
  0 < delta <= 0.1 ->
  Rabs (d - 0.25 * sqrt 2) < delta ->
  Rabs (Psi.eval (Psi.make center) y - 0) < 16 * delta /\
  norm (Psi.grad (Psi.make center) y) < 512 * delta.
Proof.
  intros d [Hd0 Hd1] Hnear.
  pose proof sqrt2_bounds as [Hs1 Hs2].
  apply Rabs_def2 in Hnear as [Hup Hlo].
  destruct (Rle_lt_dec d (0.25 * sqrt 2)) as [Hin | Hout].
  - rewrite Psi_eval_inner, Psi_grad_inner by exact Hin.
    rewrite norm_zero_vector, Rminus_diag, Rabs_R0. lra.
  - assert (Htr : 0.25 * sqrt 2 < d < 0.5) by lra.
    pose proof (cos_phase_small d Htr) as [Hc0 Hc1].
    pose proof (sin_phase_small d Htr) as [Hs0 _].
    pose proof (trig_le_1 _ Hc0 Hs0) as [Hc2 Hs3].
    pose proof constant_bounds as [Hk1 Hk2].
    rewrite Psi_eval_transition, Psi_grad_norm_transition by exact Htr.
    fold d.
    set (co := cos (Psi.constant * (d - 0.5))) in *.
    set (si := sin (Psi.constant * (d - 0.5))) in *.
    split.
    + rewrite Rminus_0_r, Rabs_pos_eq by (apply pow2_ge_0). nra.
    + apply Rle_lt_trans with (32 * co); [| lra].
      apply (grad_norm_le_32 _ co si); lra.
Qed.

Lemma Psi_near_outer_radius (center y : Vector2d) (delta : R) :
  let d := norm (y - center)%vec in
  0 < delta <= 0.1 ->
  Rabs (d - 0.5) < delta ->
  Rabs (Psi.eval (Psi.make center) y - 1) < 16 * delta /\
  norm (Psi.grad (Psi.make center) y) < 512 * delta.
Proof.
  intros d [Hd0 Hd1] Hnear.
  pose proof sqrt2_bounds as [Hs1 Hs2].
  apply Rabs_def2 in Hnear as [Hup Hlo].
  destruct (Rle_lt_dec 0.5 d) as [Hout | Hin].
  - rewrite Psi_eval_outer, Psi_grad_outer by (fold d; lra).
    rewrite norm_zero_vector, Rminus_diag, Rabs_R0. lra.
  - assert (Htr : 0.25 * sqrt 2 < d < 0.5) by lra.
    pose proof (cos_phase_small d Htr) as [Hc0 _].
    pose proof (sin_phase_small d Htr) as [Hs0 Hs4].
    pose proof (trig_le_1 _ Hc0 Hs0) as [Hc2 Hs3].
    pose proof constant_bounds as [Hk1 Hk2].
    pose proof (sin2_cos2 (Psi.constant * (d - 0.5))) as Hsc.
    unfold Rsqr in Hsc.
    rewrite Psi_eval_transition, Psi_grad_norm_transition by exact Htr.
    fold d.
    set (co := cos (Psi.constant * (d - 0.5))) in *.
    set (si := sin (Psi.constant * (d - 0.5))) in *.
    split.
    + replace (co ^ 2 - 1) with (- (si * si)) by nra.
      rewrite Rabs_Ropp, Rabs_pos_eq by nra. nra.
    + apply Rle_lt_trans with (32 * si); [| lra].
      replace (2 * - Psi.constant * co * si)
        with (2 * - Psi.constant * si * co) by ring.
      apply (grad_norm_le_32 _ si co); lra.
Qed.

(** C6: [Psi] and its gradient are continuous across both radii, for every
    centre: as d = |y - center| tends to 0.25 sqrt 2 the value tends to 0 and
    the gradient to (0,0), as d tends to 0.5 the value tends to 1 and the
    gradient to (0,0).  On the transition side these are the limits of the
    transition branch; on the other side the inner and outer branches hold
    the limit values exactly. *)
Theorem Psi_continuous_at_radii (center : Vector2d) (eps : R) :
  0 < eps ->
  exists delta, 0 < delta /\
    forall y, let d := norm (y - center)%vec in
      (Rabs (d - 0.25 * sqrt 2) < delta ->
         Rabs (Psi.eval (Psi.make center) y - 0) < eps /\
         norm (Psi.grad (Psi.make center) y - Vec2 0 0)%vec < eps) /\
      (Rabs (d - 0.5) < delta ->
         Rabs (Psi.eval (Psi.make center) y - 1) < eps /\
         norm (Psi.grad (Psi.make center) y - Vec2 0 0)%vec < eps).
Proof.
  intros Heps. exists (Rmin 0.1 (eps / 512)).
  assert (Hdelta : 0 < Rmin 0.1 (eps / 512) <= 0.1).
  { split; [apply Rmin_glb_lt; lra | apply Rmin_l]. }
  assert (Hsmall : 512 * Rmin 0.1 (eps / 512) <= eps).
  { pose proof (Rmin_r 0.1 (eps / 512)). lra. }
  split; [apply Hdelta |].
  assert (Hsub : forall u, (u - Vec2 0 0)%vec = u).
  { intros [u0 u1]. unfold vsub. simpl. now rewrite !Rminus_0_r. }
  intros y d. split; intros Hnear; rewrite Hsub.
  - destruct (Psi_near_inner_radius center y _ Hdelta Hnear). lra.
  - destruct (Psi_near_outer_radius center y _ Hdelta Hnear). lra.
Qed.

Lemma Psi_continuous_at_radii_witness :
  exists delta, 0 < delta /\
    forall y, let d := norm (y - Vec2 0.5 0.5)%vec in
      (Rabs (d - 0.25 * sqrt 2) < delta ->
         Rabs (Psi.eval (Psi.make (Vec2 0.5 0.5)) y - 0) < 1 /\
         norm (Psi.grad (Psi.make (Vec2 0.5 0.5)) y - Vec2 0 0)%vec < 1) /\
      (Rabs (d - 0.5) < delta ->
         Rabs (Psi.eval (Psi.make (Vec2 0.5 0.5)) y - 1) < 1 /\
         norm (Psi.grad (Psi.make (Vec2 0.5 0.5)) y - Vec2 0 0)%vec < 1).
Proof.
  apply (Psi_continuous_at_radii (Vec2 0.5 0.5) 1). lra.
Defined.

(** ** The Laplacian of the bump function *)

Lemma phase_derivative (d : R) :
  derivable_pt_lim (fun t : R => Psi.constant * (t - 0.5)) d Psi.constant.
Proof.
  intros eps Heps. exists (mkposreal 1 Rlt_0_1). intros h Hh _.
  replace ((Psi.constant * (d + h - 0.5) - Psi.constant * (d - 0.5)) / h -
           Psi.constant) with 0 by (field; exact Hh).
  now rewrite Rabs_R0.
Qed.

Lemma cos_phase_derivative (d : R) :
  derivable_pt_lim (fun t : R => cos (Psi.constant * (t - 0.5))) d
    (- sin (Psi.constant * (d - 0.5)) * Psi.constant).
Proof.
  apply (derivable_pt_lim_comp (fun t => Psi.constant * (t - 0.5)) cos).
  - apply phase_derivative.
  - apply derivable_pt_lim_cos.
Qed.

Lemma sin_phase_derivative (d : R) :
  derivable_pt_lim (fun t : R => sin (Psi.constant * (t - 0.5))) d
    (cos (Psi.constant * (d - 0.5)) * Psi.constant).
Proof.
  apply (derivable_pt_lim_comp (fun t => Psi.constant * (t - 0.5)) sin).
  - apply phase_derivative.
  - apply derivable_pt_lim_sin.
Qed.

(** [profile'] is the derivative of [profile]. *)
Lemma profile_derivative (d : R) : derivable_pt_lim profile d (profile' d).
Proof.
  unfold profile, profile'.
  replace (-2 * Psi.constant * cos (Psi.constant * (d - 0.5)) *
           sin (Psi.constant * (d - 0.5)))
    with (INR 2 * cos (Psi.constant * (d - 0.5)) ^ Nat.pred 2 *
          (- sin (Psi.constant * (d - 0.5)) * Psi.constant))
    by (simpl; ring).
  apply (derivable_pt_lim_comp (fun t => cos (Psi.constant * (t - 0.5)))
           (fun u => u ^ 2)).
  - apply cos_phase_derivative.
  - apply derivable_pt_lim_pow.
Qed.

(** [profile''] is the derivative of [profile']. *)
Lemma profile'_derivative (d : R) : derivable_pt_lim profile' d (profile'' d).
Proof.
  unfold profile', profile''.
  set (th := Psi.constant * (d - 0.5)).
  replace (2 * Psi.constant ^ 2 * (sin th ^ 2 - cos th ^ 2))
    with ((0 * cos th + -2 * Psi.constant * (- sin th * Psi.constant)) * sin th +
          (-2 * Psi.constant * cos th) * (cos th * Psi.constant))
    by ring.
  apply (derivable_pt_lim_mult
           (fun t => -2 * Psi.constant * cos (Psi.constant * (t - 0.5)))
           (fun t => sin (Psi.constant * (t - 0.5)))).
  - apply (derivable_pt_lim_mult (fun _ => -2 * Psi.constant)
             (fun t => cos (Psi.constant * (t - 0.5)))).
    + apply derivable_pt_lim_const.
    + apply cos_phase_derivative.
  - apply sin_phase_derivative.
Qed.

(** ** The boundary potentials *)

Lemma Rsum_app (l1 l2 : list R) : Rsum (l1 ++ l2) = Rsum l1 + Rsum l2.
Proof.
  induction l1 as [| a l1 IH]; simpl.
  - ring.
  - rewrite IH. ring.
Qed.

Lemma Rsum_cons (a : R) (l : list R) : Rsum (a :: l) = a + Rsum l.
Proof. reflexivity. Qed.

Lemma geometries_cons {MP : MeshProvider} (e : Entity) (es : list Entity)
    (geo : Geometry) :
  EntityGeometry e = Some geo -> geometries (e :: es) = geo :: geometries es.
Proof. intros H. unfold geometries. cbn [flat_map]. now rewrite H. Qed.

Section BoundaryLoop.

Context {MP : MeshProvider}.

(** The loop shared by [PSL] and [PDL]: a kernel [kern] is evaluated at the
    midpoint of each flagged edge and a contribution is added to the
    running value. *)
Variable K : Type.
Variable kern : Vector2d -> result K.
Variable flag : Entity -> bool.

Let body (contrib : Vector2d -> K -> Geometry -> R) (acc : R) (e : Entity)
    : result R :=
  if flag e then
    geo <- assert_nonnull (EntityGeometry e) "Missing geometry!" ;;
    let corners := Corners geo in
    let midpoint := edge_midpoint corners in
    k <- kern midpoint ;;
    Ok (acc + contrib midpoint k geo)
  else Ok acc.

(** When no check fails the loop adds up one contribution per flagged
    edge. *)
Lemma boundary_loop (kval : Vector2d -> K)
    (contrib : Vector2d -> K -> Geometry -> R) (es : list Entity) :
  (forall e, In e (filter flag es) ->
     exists geo, EntityGeometry e = Some geo /\
                 kern (midpoint_of geo) = Ok (kval (midpoint_of geo))) ->
  forall acc,
    for_each es (body contrib) acc =
      Ok (acc + Rsum (map (fun geo => contrib (midpoint_of geo)
                                        (kval (midpoint_of geo)) geo)
                          (geometries (filter flag es)))).
Proof.
  induction es as [| e es IH]; intros Hreg acc.
  - simpl. f_equal. ring.
  - cbn [for_each filter]. unfold body at 1.
    destruct (flag e) eqn:Hflag.
    + destruct (Hreg e) as [geo [Hgeo Hk]].
      { cbn [filter]. rewrite Hflag. now left. }
      rewrite Hgeo. cbn [assert_nonnull LF_ASSERT_MSG bind].
      fold (midpoint_of geo). rewrite Hk. cbn [bind].
      rewrite IH.
      * f_equal. rewrite (geometries_cons e _ geo Hgeo).
        cbn [map]. rewrite Rsum_cons. ring.
      * intros e' He'. apply Hreg. cbn [filter]. rewrite Hflag.
        now right.
    + cbn [bind]. apply IH. intros e' He'. apply Hreg.
      cbn [filter]. now rewrite Hflag.
Qed.

(** The loop is linear in the contribution, aborts included: the checks
    do not look at the contribution. *)
Lemma boundary_loop_linear (a b : R)
    (cv cw cz : Vector2d -> K -> Geometry -> R) :
  (forall m k geo, cz m k geo = a * cv m k geo + b * cw m k geo) ->
  forall es accv accw,
    for_each es (body cz) (a * accv + b * accw) =
      lift2 (fun p q => a * p + b * q)
        (for_each es (body cv) accv) (for_each es (body cw) accw).
Proof.
  intros Hlin. induction es as [| e es IH]; intros accv accw.
  - reflexivity.
  - cbn [for_each]. unfold body at 1 3 5.
    destruct (flag e).
    + destruct (EntityGeometry e) as [geo |];
        cbn [assert_nonnull LF_ASSERT_MSG bind]; [| reflexivity].
      destruct (kern (edge_midpoint (Corners geo))) as [k | f];
        cbn [bind]; [| reflexivity].
      rewrite Hlin.
      replace (a * accv + b * accw +
               (a * cv (edge_midpoint (Corners geo)) k geo +
                b * cw (edge_midpoint (Corners geo)) k geo))
        with (a * (accv + cv (edge_midpoint (Corners geo)) k geo) +
              b * (accw + cw (edge_midpoint (Corners geo)) k geo))
        by ring.
      apply IH.
    + cbn [bind]. apply IH.
Qed.

End BoundaryLoop.

Section Potentials.

Context {MP : MeshProvider}.
Variable n : Vector2d -> Vector2d.

Lemma PSL_without_solution (mesh : Mesh) (v : Vector2d -> R) (x : Vector2d) :
  PSL false mesh v x = Ok 0.
Proof. reflexivity. Qed.

Lemma PDL_without_solution (mesh : Mesh) (v : Vector2d -> R) (x : Vector2d) :
  PDL n false mesh v x = Ok 0.
Proof. reflexivity. Qed.

Lemma PSL_regular (mesh : Mesh) (v : Vector2d -> R) (x : Vector2d) :
  regular_at mesh x -> PSL true mesh v x = Ok (PSL_sum mesh v x).
Proof.
  intros Hreg. unfold PSL, PSL_sum.
  rewrite (boundary_loop R
             (FundamentalSolution.eval (FundamentalSolution.make x))
             (flagEntitiesOnBoundary mesh 1) (G_x x)
             (fun m k geo => v m * k * Volume geo)).
  - f_equal. unfold boundary_edges. ring.
  - intros e He. destruct (Hreg e He) as [geo [Hgeo Hne]].
    exists geo. split; [exact Hgeo |]. apply eval_away. congruence.
Qed.

Lemma PDL_regular (mesh : Mesh) (v : Vector2d -> R) (x : Vector2d) :
  regular_at mesh x -> PDL n true mesh v x = Ok (PDL_sum n mesh v x).
Proof.
  intros Hreg. unfold PDL, PDL_sum.
  rewrite (boundary_loop Vector2d
             (FundamentalSolution.grad (FundamentalSolution.make x))
             (flagEntitiesOnBoundary mesh 1) (gradG_x x)
             (fun m k geo => v m * dot k (n m) * Volume geo)).
  - f_equal. unfold boundary_edges. ring.
  - intros e He. destruct (Hreg e He) as [geo [Hgeo Hne]].
    exists geo. split; [exact Hgeo |]. apply grad_away. congruence.
Qed.

(** A mesh of the unit square is regular at every interior point. *)
Lemma unit_square_regular (mesh : Mesh) (x : Vector2d) :
  unit_square_boundary mesh -> interior x -> regular_at mesh x.
Proof.
  intros Hsq [[Hx0 Hx1] [Hy0 Hy1]] e He.
  destruct (Hsq e He) as [geo [Hgeo [_ [_ Hside]]]].
  exists geo. split; [exact Hgeo |]. intros Heq. rewrite Heq in Hside.
  lra.
Qed.

Lemma geometries_length (es : list Entity) :
  (forall e, In e es -> exists geo, EntityGeometry e = Some geo) ->
  length (geometries es) = length es.
Proof.
  induction es as [| e es IH]; intros Hall; [reflexivity |].
  destruct (Hall e (or_introl eq_refl)) as [geo Hgeo].
  rewrite (geometries_cons e es geo Hgeo). simpl. f_equal.
  apply IH. intros e' He'. apply Hall. now right.
Qed.

Lemma PSL_linear (SOLUTION : bool) (mesh : Mesh) (x : Vector2d)
    (v w : Vector2d -> R) (a b : R) :
  PSL SOLUTION mesh (fun m => a * v m + b * w m) x =
    lift2 (fun p q => a * p + b * q)
      (PSL SOLUTION mesh v x) (PSL SOLUTION mesh w x).
Proof.
  unfold PSL. destruct SOLUTION.
  - replace 0 with (a * 0 + b * 0) at 1 by ring.
    apply (boundary_loop_linear R _ _ a b
             (fun m k geo => v m * k * Volume geo)
             (fun m k geo => w m * k * Volume geo)
             (fun m k geo => (a * v m + b * w m) * k * Volume geo)).
    intros. ring.
  - unfold lift2. cbn [bind]. f_equal. ring.
Qed.

Lemma PDL_linear (SOLUTION : bool) (mesh : Mesh) (x : Vector2d)
    (v w : Vector2d -> R) (a b : R) :
  PDL n SOLUTION mesh (fun m => a * v m + b * w m) x =
    lift2 (fun p q => a * p + b * q)
      (PDL n SOLUTION mesh v x) (PDL n SOLUTION mesh w x).
Proof.
  unfold PDL. destruct SOLUTION.
  - replace 0 with (a * 0 + b * 0) at 1 by ring.
    apply (boundary_loop_linear Vector2d _ _ a b
             (fun m k geo => v m * dot k (n m) * Volume geo)
             (fun m k geo => w m * dot k (n m) * Volume geo)
             (fun m k geo => (a * v m + b * w m) * dot k (n m) * Volume geo)).
    intros. ring.
  - unfold lift2. cbn [bind]. f_equal. ring.
Qed.

Lemma Rsum_zero {A : Type} (f : A -> R) (l : list A) :
  (forall a, f a = 0) -> Rsum (map f l) = 0.
Proof.
  intros Hf. induction l as [| a l IH]; [reflexivity |].
  cbn [map]. rewrite Rsum_cons, Hf, IH. ring.
Qed.

End Potentials.

(** C1: on a mesh of the unit square and at an interior point x, [PSL]
    (built with [SOLUTION] set, as is the master solution) returns the sum
    over the boundary-flagged edges of v(m) G_x(m) |e| and
    [PDL] the sum of v(m) (grad G_x(m) . n(m)) |e|, with m the midpoint of
    the two corners of the edge and n(m) the value of [OuterNormalUnitSquare]
    at m; there is one term per flagged edge and none for the others. *)
Theorem potentials_are_midpoint_sums {MP : MeshProvider}
    (OuterNormalUnitSquare : Vector2d -> Vector2d)
    (mesh : Mesh) (v : Vector2d -> R) (x : Vector2d) :
  unit_square_boundary mesh ->
  interior x ->
  let edges := filter (flagEntitiesOnBoundary mesh 1) (Entities mesh 1) in
  let m := fun geo => (0.5 *: (col (Corners geo) 0 + col (Corners geo) 1))%vec in
  PSL true mesh v x =
    Ok (Rsum (map (fun geo => v (m geo) * G_x x (m geo) * Volume geo)
                  (geometries edges))) /\
  PDL OuterNormalUnitSquare true mesh v x =
    Ok (Rsum (map (fun geo => v (m geo) *
                              dot (gradG_x x (m geo))
                                  (OuterNormalUnitSquare (m geo)) *
                              Volume geo)
                  (geometries edges))) /\
  length (geometries edges) = length edges.
Proof.
  intros Hsq Hint edges m.
  pose proof (unit_square_regular mesh x Hsq Hint) as Hreg.
  split; [| split].
  - apply (PSL_regular mesh v x Hreg).
  - apply (PDL_regular OuterNormalUnitSquare mesh v x Hreg).
  - apply geometries_length. intros e He.
    destruct (Hsq e He) as [geo [Hgeo _]]. now exists geo.
Qed.

Lemma ListMesh_unit_square_boundary :
  unit_square_boundary (MP := ListMesh.provider) ListMesh.unit_square.
Proof.
  intros e He. simpl in He.
  destruct He as [<- | [<- | [<- | [<- | []]]]];
    (eexists; split; [reflexivity |]);
    unfold on_unit_square_boundary, midpoint_of, edge_midpoint; simpl;
    (split; [lra | split; [lra |]]).
  - right; right; left; lra.
  - right; left; lra.
  - right; right; right; lra.
  - left; lra.
Qed.

Lemma interior_point : interior (Vec2 0.3 0.4).
Proof. unfold interior; simpl; lra. Qed.

Lemma potentials_are_midpoint_sums_witness :
  PSL (MP := ListMesh.provider) true ListMesh.unit_square (fun _ => 1)
      (Vec2 0.3 0.4) =
    Ok (PSL_sum (MP := ListMesh.provider) ListMesh.unit_square (fun _ => 1)
          (Vec2 0.3 0.4)) /\
  PDL (MP := ListMesh.provider) ListMesh.normal true ListMesh.unit_square
      (fun _ => 1) (Vec2 0.3 0.4) =
    Ok (PDL_sum (MP := ListMesh.provider) ListMesh.normal ListMesh.unit_square
          (fun _ => 1) (Vec2 0.3 0.4)) /\
  length (geometries (MP := ListMesh.provider)
            (boundary_edges (MP := ListMesh.provider) ListMesh.unit_square))
    = 4%nat.
Proof.
  exact (potentials_are_midpoint_sums (MP := ListMesh.provider)
           ListMesh.normal ListMesh.unit_square (fun _ => 1) (Vec2 0.3 0.4)
           ListMesh_unit_square_boundary interior_point).
Defined.

(** *** The loop on small meshes *)

Example PSL_empty_mesh (v : Vector2d -> R) (x : Vector2d) :
  PSL (MP := ListMesh.provider) true [] v x = Ok 0.
Proof. reflexivity. Qed.

(** An edge that is not flagged is skipped, even when the evaluation point
    is its midpoint. *)
Example PSL_skips_interior_edge (v : Vector2d -> R) :
  PSL (MP := ListMesh.provider) true
    [ListMesh.segment (Vec2 0 0) (Vec2 1 1) false] v (Vec2 0.5 0.5) = Ok 0.
Proof. reflexivity. Qed.

Example PSL_missing_geometry (v : Vector2d -> R) (x : Vector2d) :
  PSL (MP := ListMesh.provider) true [ListMesh.mkEdge None true] v x =
    Abort (AssertFailed "Missing geometry!").
Proof. reflexivity. Qed.

(** At the midpoint of a boundary edge the fundamental solution is not
    defined and the call stops. *)
Example PSL_at_boundary_midpoint (v : Vector2d -> R) :
  PSL (MP := ListMesh.provider) true ListMesh.unit_square v (Vec2 0.5 0) =
    Abort (AssertFailed "G not defined for these coordinates!").
Proof.
  unfold PSL. cbn [Entities flagEntitiesOnBoundary ListMesh.provider
                   ListMesh.unit_square for_each ListMesh.segment
                   ListMesh.edge_on_boundary ListMesh.edge_corners
                   EntityGeometry assert_nonnull bind Corners].
  replace (edge_midpoint (Mat2 (Vec2 0 0) (Vec2 1 0))) with (Vec2 0.5 0).
  - unfold FundamentalSolution.eval. cbn [FundamentalSolution.x_].
    now rewrite vneq_refl.
  - unfold edge_midpoint, vscale, vadd. cbn [col col0 col1 coeff0 coeff1].
    f_equal; lra.
Qed.

(** C10: [PSL] and [PDL] are linear in the density, for either setting of
    [SOLUTION] and with aborts carried along (the checks do not depend on the
    density); where the mesh is regular at x, the zero density gives exactly
    0. *)
Theorem potentials_linear_in_density {MP : MeshProvider}
    (OuterNormalUnitSquare : Vector2d -> Vector2d) (SOLUTION : bool)
    (mesh : Mesh) (x : Vector2d) (v w : Vector2d -> R) (a b : R) :
  PSL SOLUTION mesh (fun m => a * v m + b * w m) x =
    lift2 (fun p q => a * p + b * q)
      (PSL SOLUTION mesh v x) (PSL SOLUTION mesh w x) /\
  PDL OuterNormalUnitSquare SOLUTION mesh (fun m => a * v m + b * w m) x =
    lift2 (fun p q => a * p + b * q)
      (PDL OuterNormalUnitSquare SOLUTION mesh v x)
      (PDL OuterNormalUnitSquare SOLUTION mesh w x) /\
  (regular_at mesh x ->
     (exists p q,
        PSL SOLUTION mesh v x = Ok p /\ PSL SOLUTION mesh w x = Ok q /\
        PSL SOLUTION mesh (fun m => a * v m + b * w m) x = Ok (a * p + b * q)) /\
     (exists p q,
        PDL OuterNormalUnitSquare SOLUTION mesh v x = Ok p /\
        PDL OuterNormalUnitSquare SOLUTION mesh w x = Ok q /\
        PDL OuterNormalUnitSquare SOLUTION mesh
            (fun m => a * v m + b * w m) x = Ok (a * p + b * q)) /\
     PSL SOLUTION mesh (fun _ => 0) x = Ok 0 /\
     PDL OuterNormalUnitSquare SOLUTION mesh (fun _ => 0) x = Ok 0).
Proof.
  split; [apply PSL_linear | split; [apply PDL_linear |]].
  intros Hreg. destruct SOLUTION.
  - repeat split.
    + exists (PSL_sum mesh v x), (PSL_sum mesh w x).
      rewrite PSL_linear, !PSL_regular by exact Hreg. now repeat split.
    + exists (PDL_sum OuterNormalUnitSquare mesh v x),
             (PDL_sum OuterNormalUnitSquare mesh w x).
      rewrite PDL_linear, !PDL_regular by exact Hreg. now repeat split.
    + rewrite PSL_regular by exact Hreg. f_equal. unfold PSL_sum.
      apply Rsum_zero. intros geo. ring.
    + rewrite PDL_regular by exact Hreg. f_equal. unfold PDL_sum.
      apply Rsum_zero. intros geo. ring.
  - repeat split.
    + exists 0, 0. rewrite !PSL_without_solution. repeat split.
      f_equal. ring.
    + exists 0, 0. rewrite !PDL_without_solution. repeat split.
      f_equal. ring.
Qed.

Lemma potentials_linear_in_density_witness :
  (exists p q,
     PSL (MP := ListMesh.provider) true ListMesh.unit_square (fun m => coeff0 m)
         (Vec2 0.3 0.4) = Ok p /\
     PSL (MP := ListMesh.provider) true ListMesh.unit_square (fun m => coeff1 m)
         (Vec2 0.3 0.4) = Ok q /\
     PSL (MP := ListMesh.provider) true ListMesh.unit_square
         (fun m => 2 * coeff0 m + 3 * coeff1 m) (Vec2 0.3 0.4) =
       Ok (2 * p + 3 * q)) /\
  (exists p q,
     PDL (MP := ListMesh.provider) ListMesh.normal true ListMesh.unit_square
         (fun m => coeff0 m) (Vec2 0.3 0.4) = Ok p /\
     PDL (MP := ListMesh.provider) ListMesh.normal true ListMesh.unit_square
         (fun m => coeff1 m) (Vec2 0.3 0.4) = Ok q /\
     PDL (MP := ListMesh.provider) ListMesh.normal true ListMesh.unit_square
         (fun m => 2 * coeff0 m + 3 * coeff1 m) (Vec2 0.3 0.4) =
       Ok (2 * p + 3 * q)) /\
  PSL (MP := ListMesh.provider) true ListMesh.unit_square (fun _ => 0)
      (Vec2 0.3 0.4) = Ok 0 /\
  PDL (MP := ListMesh.provider) ListMesh.normal true ListMesh.unit_square
      (fun _ => 0) (Vec2 0.3 0.4) = Ok 0.
Proof.
  apply (proj2 (proj2 (potentials_linear_in_density (MP := ListMesh.provider)
                         ListMesh.normal true ListMesh.unit_square
                         (Vec2 0.3 0.4) coeff0 coeff1 2 3))).
  apply unit_square_regular.
  - exact ListMesh_unit_square_boundary.
  - exact interior_point.
Defined.

(** ** The elliptic solve *)

Lemma ComputationInfo_eqb_Success (i : ComputationInfo) :
  ComputationInfo_eqb i Success = true <-> i = Success.
Proof. destruct i; simpl; split; congruence. Qed.

Section SolveBVPStages.

Context {MP : MeshProvider} {FE : FEServices}.
Variable fe_space_p : FeSpace.
Variable u : Vector2d -> R.

(** [SolveBVP] in terms of its named intermediate values. *)
Lemma SolveBVP_stages :
  SolveBVP fe_space_p u =
    (LF_VERIFY_MSG
       (ComputationInfo_eqb (SparseLU_info (factorization fe_space_p u))
          Success)
       "LU decomposition failed" ;;;
     LF_VERIFY_MSG
       (ComputationInfo_eqb
          (SparseLU_info (snd (solve_outcome fe_space_p u))) Success)
       "Solving LSE failed" ;;;
     Ok (fst (solve_outcome fe_space_p u))).
Proof.
  unfold SolveBVP, solve_outcome, factorization, eliminated_system,
    Dirichlet_flags_values, Galerkin_matrix, load_vector.
  destruct (FixFlaggedSolutionCompAlt _ _ _) as [A phi]. cbn [fst snd].
  destruct (SparseLU_solve _ _) as [discrete_solution solver].
  reflexivity.
Qed.

Lemma SolveBVP_LU_failure :
  SparseLU_info (factorization fe_space_p u) <> Success ->
  SolveBVP fe_space_p u = Abort (VerifyFailed "LU decomposition failed").
Proof.
  intros Hfail. rewrite SolveBVP_stages.
  destruct (ComputationInfo_eqb _ Success) eqn:E.
  - apply ComputationInfo_eqb_Success in E. contradiction.
  - reflexivity.
Qed.

Lemma SolveBVP_solve_failure :
  SparseLU_info (factorization fe_space_p u) = Success ->
  SparseLU_info (snd (solve_outcome fe_space_p u)) <> Success ->
  SolveBVP fe_space_p u = Abort (VerifyFailed "Solving LSE failed").
Proof.
  intros Hlu Hfail. rewrite SolveBVP_stages, Hlu.
  cbn [ComputationInfo_eqb LF_VERIFY_MSG bind].
  destruct (ComputationInfo_eqb _ Success) eqn:E.
  - apply ComputationInfo_eqb_Success in E. contradiction.
  - reflexivity.
Qed.

Lemma SolveBVP_returns (x : VectorXd) :
  SolveBVP fe_space_p u = Ok x ->
  SparseLU_info (factorization fe_space_p u) = Success /\
  SparseLU_info (snd (solve_outcome fe_space_p u)) = Success /\
  x = fst (solve_outcome fe_space_p u).
Proof.
  rewrite SolveBVP_stages.
  destruct (ComputationInfo_eqb (SparseLU_info (factorization _ _)) Success)
    eqn:E1; [| discriminate].
  cbn [LF_VERIFY_MSG bind].
  destruct (ComputationInfo_eqb (SparseLU_info (snd _)) Success)
    eqn:E2; [| discriminate].
  cbn [bind]. intros [= <-].
  apply ComputationInfo_eqb_Success in E1, E2. now repeat split.
Qed.

Lemma SolveBVP_success :
  SparseLU_info (factorization fe_space_p u) = Success ->
  SparseLU_info (snd (solve_outcome fe_space_p u)) = Success ->
  SolveBVP fe_space_p u = Ok (fst (solve_outcome fe_space_p u)).
Proof.
  intros H1 H2. rewrite SolveBVP_stages, H1, H2. reflexivity.
Qed.

End SolveBVPStages.

(** C8: when the factorisation does not report success, or the solve after
    it does not, [SolveBVP] stops in the failed [LF_VERIFY_MSG] and returns no
    vector; a vector is returned only when both report success, and it is the
    one [solve] produced. *)
Theorem SolveBVP_failure_is_fatal {MP : MeshProvider} {FE : FEServices}
    (fe_space_p : FeSpace) (u : Vector2d -> R) :
  (SparseLU_info (factorization fe_space_p u) <> Success ->
     SolveBVP fe_space_p u = Abort (VerifyFailed "LU decomposition failed")) /\
  (SparseLU_info (factorization fe_space_p u) = Success ->
   SparseLU_info (snd (solve_outcome fe_space_p u)) <> Success ->
     SolveBVP fe_space_p u = Abort (VerifyFailed "Solving LSE failed")) /\
  (forall x, SolveBVP fe_space_p u = Ok x ->
     SparseLU_info (factorization fe_space_p u) = Success /\
     SparseLU_info (snd (solve_outcome fe_space_p u)) = Success /\
     x = fst (solve_outcome fe_space_p u)).
Proof.
  split; [| split].
  - apply SolveBVP_LU_failure.
  - apply SolveBVP_solve_failure.
  - apply SolveBVP_returns.
Qed.

(** ** The list provider keeps the contracts *)

Lemma Reqb_refl (a : R) : Reqb a a = true.
Proof. now apply Reqb_true_iff. Qed.

Lemma Reqb_false (a b : R) : a <> b -> Reqb a b = false.
Proof.
  intros Hne. destruct (Reqb a b) eqn:E; [| reflexivity].
  apply Reqb_true_iff in E. contradiction.
Qed.

Lemma map_nth_seq (x : VectorXd) :
  map (fun i => nth i x 0) (seq 0 (length x)) = x.
Proof.
  induction x as [| a x IH]; [reflexivity |].
  cbn [length seq map nth]. f_equal.
  rewrite <- seq_shift, map_map. exact IH.
Qed.

Lemma nth_map_seq (f : nat -> R) (n k : nat) :
  (k < n)%nat -> nth k (map f (seq 0 n)) 0 = f k.
Proof.
  intros Hk. rewrite (nth_indep _ 0 (f 0%nat)) by now rewrite length_map, length_seq.
  rewrite (map_nth f (seq 0 n) 0%nat k). now rewrite seq_nth.
Qed.

Module ListFEFacts.
Import ListFE.

Lemma fix_rhs_length (sel : nat -> bool * R) (b : VectorXd) :
  forall s, length (fix_rhs sel s b) = length b.
Proof.
  induction b as [| bk b IH]; intros s; [reflexivity |].
  cbn [fix_rhs length]. now rewrite IH.
Qed.

Lemma fix_rhs_nth (sel : nat -> bool * R) (b : VectorXd) :
  forall s k, (k < length b)%nat ->
    nth k (fix_rhs sel s b) 0 =
      if fst (sel (s + k)%nat) then snd (sel (s + k)%nat) else nth k b 0.
Proof.
  induction b as [| bk b IH]; intros s k Hk; [inversion Hk |].
  destruct k as [| k]; cbn [fix_rhs nth].
  - now rewrite Nat.add_0_r.
  - rewrite IH by (cbn [length] in Hk; lia).
    now rewrite Nat.add_succ_r.
Qed.

Lemma row_of_cleared (sel : nat -> bool * R) (k : nat) (ts : list Triplet) :
  fst (sel k) = true ->
  row k (filter (fun t => negb (fst (sel (trow t)))) ts) = [].
Proof.
  intros Hsel. unfold row. induction ts as [| t ts IH]; [reflexivity |].
  cbn [filter]. destruct (negb (fst (sel (trow t)))) eqn:Hneg; [| exact IH].
  cbn [filter]. destruct (Nat.eqb (trow t) k) eqn:Heq; [| exact IH].
  apply Nat.eqb_eq in Heq. rewrite Heq, Hsel in Hneg. discriminate.
Qed.

Lemma row_of_diagonal (p : nat -> bool) (k n : nat) :
  forall s, (s <= k < s + n)%nat -> p k = true ->
    row k (map (fun j => triplet j j 1) (filter p (seq s n))) =
      [triplet k k 1].
Proof.
  unfold row. induction n as [| n IH]; intros s Hk Hp; [lia |].
  cbn [seq filter]. destruct (Nat.eq_dec s k) as [-> | Hne].
  - rewrite Hp. cbn [map filter trow triplet fst]. rewrite Nat.eqb_refl.
    f_equal. clear IH Hk Hp.
    assert (Hnone : forall m l, (forall j, In j l -> (k < j)%nat) ->
              filter (fun t => Nat.eqb (trow t) k)
                (map (fun j => triplet j j 1) (filter p l)) = m -> m = []).
    { intros m l Hl <-. induction l as [| j l IHl]; [reflexivity |].
      cbn [filter]. destruct (p j).
      - cbn [map filter trow triplet fst].
        destruct (Nat.eqb j k) eqn:E.
        + apply Nat.eqb_eq in E. specialize (Hl j (or_introl eq_refl)). lia.
        + apply IHl. intros j' Hj'. apply Hl. now right.
      - apply IHl. intros j' Hj'. apply Hl. now right. }
    apply (Hnone _ (seq (S k) n)); [| reflexivity].
    intros j Hj. apply in_seq in Hj. lia.
  - assert (Hrest : (S s <= k < S s + n)%nat) by lia.
    destruct (p s).
    + cbn [map filter trow triplet fst].
      destruct (Nat.eqb s k) eqn:E; [apply Nat.eqb_eq in E; contradiction |].
      now apply IH.
    + now apply IH.
Qed.

Lemma row_app (k : nat) (ts1 ts2 : list Triplet) :
  row k (ts1 ++ ts2) = row k ts1 ++ row k ts2.
Proof. apply filter_app. Qed.

Lemma times_nth (M : COO) (x : VectorXd) (k : nat) :
  (k < length x)%nat ->
  nth k (times M x) 0 =
    Rsum (map (fun t => tval t * nth (tcol t) x 0) (row k (coo_triplets M))).
Proof.
  intros Hk. unfold times. now rewrite nth_map_seq.
Qed.

Lemma Rsum_scaled (c : R) (l : list Triplet) :
  Rsum (map (fun t => tval t * c) l) = Rsum (map tval l) * c.
Proof.
  induction l as [| t l IH]; cbn [map]; rewrite ?Rsum_cons.
  - unfold Rsum. cbn. ring.
  - rewrite IH. ring.
Qed.

Lemma Rsum_split (g : Triplet -> R) (p : Triplet -> bool) (l : list Triplet) :
  Rsum (map g l) =
    Rsum (map g (filter p l)) + Rsum (map g (filter (fun t => negb (p t)) l)).
Proof.
  induction l as [| t l IH]; [unfold Rsum; cbn; ring |].
  cbn [map filter]. rewrite Rsum_cons, IH.
  destruct (p t); cbn [negb map]; rewrite Rsum_cons; ring.
Qed.

(** The unknown of a unit row is the right-hand side of that row. *)
Lemma solve_unit_row (ts : list Triplet) (b : VectorXd) (j : nat) :
  is_unit_row ts j = true ->
  nth j (map (solve_row ts b) (seq 0 (length b))) 0 = nth j b 0.
Proof.
  intros Hunit. destruct (Nat.lt_ge_cases j (length b)) as [Hj | Hj].
  - rewrite nth_map_seq by exact Hj. unfold solve_row. now rewrite Hunit.
  - rewrite !nth_overflow; [reflexivity | exact Hj |].
    now rewrite length_map, length_seq.
Qed.

(** The vector [solve] returns satisfies every solvable row. *)
Lemma solve_row_exact (ts : list Triplet) (b : VectorXd) (i : nat) :
  row_solvable ts i = true ->
  (i < length b)%nat ->
  row_times ts (map (solve_row ts b) (seq 0 (length b))) i = nth i b 0.
Proof.
  intros Hsolv Hi. unfold row_times.
  set (x := map (solve_row ts b) (seq 0 (length b))).
  destruct (is_unit_row ts i) eqn:Hunit.
  - pose proof (solve_unit_row ts b i Hunit) as Hx. fold x in Hx.
    unfold is_unit_row in Hunit.
    destruct (row i ts) as [| t [| t' l]]; try discriminate.
    apply andb_true_iff in Hunit as [Hcol Hval].
    apply Nat.eqb_eq in Hcol. apply Reqb_true_iff in Hval.
    cbn [map]. rewrite Rsum_cons, Hcol, Hval, Hx. unfold Rsum. cbn. ring.
  - unfold row_solvable in Hsolv. rewrite Hunit in Hsolv.
    cbn [orb] in Hsolv. apply andb_true_iff in Hsolv as [Hdiag Hoff].
    assert (Hne : diagonal ts i <> 0).
    { intros H0. apply Reqb_true_iff in H0. rewrite H0 in Hdiag.
      discriminate. }
    rewrite (Rsum_split _ (fun t => Nat.eqb (tcol t) i)).
    fold (off_diagonal ts i).
    rewrite (map_ext_in _ (fun t => tval t * nth i x 0)
               (filter (fun t => Nat.eqb (tcol t) i) (row i ts))).
    2:{ intros t Ht. apply filter_In in Ht as [_ Ht].
        apply Nat.eqb_eq in Ht. now rewrite Ht. }
    rewrite Rsum_scaled. fold (diagonal ts i).
    rewrite (map_ext_in _ (fun t => tval t * nth (tcol t) b 0)
               (off_diagonal ts i)).
    2:{ intros t Ht. rewrite forallb_forall in Hoff.
        unfold x. now rewrite (solve_unit_row ts b (tcol t) (Hoff t Ht)). }
    unfold x. rewrite nth_map_seq by exact Hi.
    unfold solve_row. rewrite Hunit. field. exact Hne.
Qed.

End ListFEFacts.

Lemma ListFE_contracts (after_solve : ComputationInfo) :
  FEContracts (FG := ListFE.geometry after_solve).
Proof.
  split.
  - (* load_of_zero_source *)
    reflexivity.
  - (* essential_conditions_sample *)
    intros fe g k Hk. cbn in Hk |- *.
    rewrite (nth_indep _ (false, 0) (ListFE.sample g (Vec2 0 0, false)))
      by now rewrite length_map.
    rewrite (map_nth (ListFE.sample g)).
    destruct (nth k (ListFE.space_nodes fe) (Vec2 0 0, false)) as [p flag].
    cbn. split; [reflexivity |]. now intros ->.
  - (* elimination_keeps_size *)
    intros sel A b. cbn. apply ListFEFacts.fix_rhs_length.
  - (* elimination_fixes_component *)
    intros sel A b k Hk Hsel. cbn. split.
    + rewrite ListFEFacts.fix_rhs_nth by exact Hk. cbn. now rewrite Hsel.
    + intros x Hx. rewrite ListFEFacts.times_nth by lia.
      cbn [ListFE.fix_rows ListFE.coo_triplets].
      rewrite ListFEFacts.row_app, ListFEFacts.row_of_cleared by exact Hsel.
      rewrite ListFEFacts.row_of_diagonal by (try exact Hsel; lia).
      cbn. ring.
  - (* solve_exact *)
    intros M b Hlu Hsolve. cbn in Hlu, Hsolve |- *.
    destruct (ListFE.solvable M) eqn:Hsolvable; [| discriminate].
    destruct (Nat.eqb (length b) (ListFE.coo_rows M)) eqn:Hlen;
      [| discriminate].
    apply Nat.eqb_eq in Hlen.
    assert (Hsize : length (ListFE.solve M b) = length b).
    { unfold ListFE.solve. now rewrite length_map, length_seq. }
    split; [| exact Hsize].
    transitivity (map (fun i => nth i b 0) (seq 0 (length b)));
      [| apply map_nth_seq].
    unfold ListFE.times. rewrite Hsize. apply map_ext_in. intros i Hi.
    apply in_seq in Hi. unfold ListFE.solve.
    apply ListFEFacts.solve_row_exact; [| lia].
    unfold ListFE.solvable in Hsolvable.
    rewrite forallb_forall in Hsolvable. apply Hsolvable.
    apply in_seq. lia.
Qed.

(** *** The list provider on the two example spaces *)

Lemma ListFE_unit_square_solve (after_solve : ComputationInfo)
    (u : Vector2d -> R) :
  SparseLU_info
    (factorization (FE := ListFE.services after_solve) ListFE.unit_square u)
    = Success /\
  SparseLU_info
    (snd (solve_outcome (FE := ListFE.services after_solve)
            ListFE.unit_square u)) = after_solve /\
  fst (solve_outcome (FE := ListFE.services after_solve) ListFE.unit_square u)
    = [u (Vec2 0 0); u (Vec2 1 0); u (Vec2 1 1); u (Vec2 0 1)].
Proof.
  unfold solve_outcome, factorization, eliminated_system.
  cbn -[Reqb].
  unfold ListFE.solvable, ListFE.solve, ListFE.solve_row,
    ListFE.row_solvable, ListFE.is_unit_row, ListFE.diagonal,
    ListFE.off_diagonal, ListFE.row, ListFE.fix_rows, ListFE.add_triplets,
    ListFE.sample, ListFE.triplet.
  cbn -[Reqb]. rewrite !Reqb_refl. cbn. now repeat split.
Qed.

(** With the centre in the interior the solve is a genuine one: the
    unknown of the centre is the mean of the four corner values. *)
Lemma ListFE_square_with_centre_solve (after_solve : ComputationInfo)
    (u : Vector2d -> R) :
  SparseLU_info
    (factorization (FE := ListFE.services after_solve)
       ListFE.square_with_centre u) = Success /\
  SparseLU_info
    (snd (solve_outcome (FE := ListFE.services after_solve)
            ListFE.square_with_centre u)) = after_solve /\
  fst (solve_outcome (FE := ListFE.services after_solve)
         ListFE.square_with_centre u)
    = [u (Vec2 0 0); u (Vec2 1 0); u (Vec2 1 1); u (Vec2 0 1);
       (u (Vec2 0 0) + u (Vec2 1 0) + u (Vec2 1 1) + u (Vec2 0 1)) / 4].
Proof.
  unfold solve_outcome, factorization, eliminated_system.
  cbn -[Reqb].
  unfold ListFE.solvable, ListFE.solve, ListFE.solve_row,
    ListFE.row_solvable, ListFE.is_unit_row, ListFE.diagonal,
    ListFE.off_diagonal, ListFE.row, ListFE.fix_rows, ListFE.add_triplets,
    ListFE.sample, ListFE.triplet.
  cbn -[Reqb]. rewrite !Reqb_refl.
  rewrite (Reqb_false (1 + (1 + (1 + (1 + 0)))) 0) by lra.
  cbn. repeat split. do 5 f_equal. lra.
Qed.

Lemma ListFE_square_with_loose_node_fails (after_solve : ComputationInfo)
    (u : Vector2d -> R) :
  SparseLU_info
    (factorization (FE := ListFE.services after_solve)
       ListFE.square_with_loose_node u) = NumericalIssue.
Proof.
  unfold factorization, eliminated_system. cbn -[Reqb].
  unfold ListFE.solvable, ListFE.solve, ListFE.solve_row,
    ListFE.row_solvable, ListFE.is_unit_row, ListFE.diagonal,
    ListFE.off_diagonal, ListFE.row, ListFE.fix_rows, ListFE.add_triplets,
    ListFE.sample, ListFE.triplet.
  cbn -[Reqb]. rewrite !Reqb_refl. reflexivity.
Qed.

Lemma SolveBVP_failure_is_fatal_witness :
  SolveBVP (FE := ListFE.services Success) ListFE.square_with_loose_node coeff0 =
    Abort (VerifyFailed "LU decomposition failed") /\
  SolveBVP (FE := ListFE.services NoConvergence) ListFE.unit_square coeff0 =
    Abort (VerifyFailed "Solving LSE failed") /\
  (SparseLU_info
     (factorization (FE := ListFE.services Success) ListFE.unit_square coeff0)
     = Success /\
   SparseLU_info
     (snd (solve_outcome (FE := ListFE.services Success) ListFE.unit_square
             coeff0)) = Success /\
   [0; 1; 1; 0] =
     fst (solve_outcome (FE := ListFE.services Success) ListFE.unit_square
            coeff0)).
Proof.
  split; [| split].
  - apply (proj1 (SolveBVP_failure_is_fatal (FE := ListFE.services Success)
                    ListFE.square_with_loose_node coeff0)).
    rewrite ListFE_square_with_loose_node_fails. discriminate.
  - destruct (ListFE_unit_square_solve NoConvergence coeff0) as [H1 [H2 _]].
    apply (proj1 (proj2 (SolveBVP_failure_is_fatal
                           (FE := ListFE.services NoConvergence)
                           ListFE.unit_square coeff0))).
    + exact H1.
    + rewrite H2. discriminate.
  - destruct (ListFE_unit_square_solve Success coeff0) as [H1 [H2 H3]].
    apply (proj2 (proj2 (SolveBVP_failure_is_fatal
                           (FE := ListFE.services Success)
                           ListFE.unit_square coeff0))).
    rewrite (SolveBVP_success _ _ H1 H2), H3. reflexivity.
Defined.

Section DirichletData.

Context {MP : MeshProvider} {FE : FEServices} {FG : FEGeometry}.
Context {FC : FEContracts}.
Variable fe_space_p : FeSpace.
Variable u : Vector2d -> R.

Let N_dofs : nat := NumDofs (LocGlobMap fe_space_p).

Lemma load_vector_zero : load_vector fe_space_p = repeat 0 N_dofs.
Proof. unfold load_vector. now rewrite load_of_zero_source. Qed.

Lemma load_vector_length : length (load_vector fe_space_p) = N_dofs.
Proof. rewrite load_vector_zero. apply repeat_length. Qed.

Lemma Dirichlet_flags (k : nat) :
  (k < N_dofs)%nat ->
  fst (nth k (Dirichlet_flags_values fe_space_p u) (false, 0)) =
    dof_on_boundary fe_space_p k.
Proof.
  intros Hk. unfold Dirichlet_flags_values.
  now destruct (essential_conditions_sample fe_space_p (fun x => u x) k Hk).
Qed.

Lemma Dirichlet_values (k : nat) :
  (k < N_dofs)%nat ->
  dof_on_boundary fe_space_p k = true ->
  snd (nth k (Dirichlet_flags_values fe_space_p u) (false, 0)) =
    u (dof_node fe_space_p k).
Proof.
  intros Hk Hbd. unfold Dirichlet_flags_values.
  destruct (essential_conditions_sample fe_space_p (fun x => u x) k Hk)
    as [_ Hval].
  now apply Hval.
Qed.

(** Every solution of the eliminated system has the sampled values at
    the boundary degrees of freedom. *)
Lemma eliminated_system_pins_boundary (x : VectorXd) (k : nat) :
  mult (makeSparse (fst (eliminated_system fe_space_p u))) x =
    snd (eliminated_system fe_space_p u) ->
  length x = N_dofs ->
  (k < N_dofs)%nat ->
  dof_on_boundary fe_space_p k = true ->
  nth k x 0 = u (dof_node fe_space_p k).
Proof.
  intros Hsol Hlen Hk Hbd. unfold eliminated_system in *.
  set (sel := fun gdof_idx : nat =>
                nth gdof_idx (Dirichlet_flags_values fe_space_p u)
                  (false, 0)) in *.
  assert (Hsel : fst (sel k) = true).
  { unfold sel. now rewrite Dirichlet_flags. }
  destruct (elimination_fixes_component sel (Galerkin_matrix fe_space_p)
              (load_vector fe_space_p) k) as [Hrhs Hrow].
  { now rewrite load_vector_length. }
  { exact Hsel. }
  rewrite <- (Hrow x) by now rewrite load_vector_length.
  rewrite Hsol, Hrhs. unfold sel. now apply Dirichlet_values.
Qed.

End DirichletData.

(** C7: with collaborators that keep their contracts, [SolveBVP] is the
    factorisation and solve of the following system: the Galerkin matrix
    and a right-hand side that is zero, in which the degrees of freedom
    flagged by sampling u, which are those on the boundary, are eliminated,
    so that the equation of a boundary degree of freedom k reads
    x_k = u (node k).  When the factorisation and the solve report success
    [SolveBVP] returns what [solve] produced, and a returned vector solves
    the system, has one entry per degree of freedom and has, at every
    boundary degree of freedom, the value of u at its node. *)
Theorem SolveBVP_reproduces_Dirichlet_data
    {MP : MeshProvider} {FE : FEServices} {FG : FEGeometry}
    (FC : FEContracts) (fe_space_p : FeSpace) (u : Vector2d -> R) :
  let dofh := LocGlobMap fe_space_p in
  let N_dofs := NumDofs dofh in
  let A :=
    AssembleMatrixLocally 0 dofh dofh LinearFELaplaceElementMatrix
      (COOMatrix_new N_dofs N_dofs) in
  let flags :=
    InitEssentialConditionFromFunction fe_space_p
      (flagEntitiesOnBoundary (FeSpaceMesh fe_space_p) 1) (fun x => u x) in
  let system :=
    FixFlaggedSolutionCompAlt
      (fun gdof_idx => nth gdof_idx flags (false, 0)) A (repeat 0 N_dofs) in
  let solver := SparseLU_compute (makeSparse (fst system)) in
  let solved := SparseLU_solve solver (snd system) in
  SolveBVP fe_space_p u =
    (LF_VERIFY_MSG (ComputationInfo_eqb (SparseLU_info solver) Success)
       "LU decomposition failed" ;;;
     LF_VERIFY_MSG (ComputationInfo_eqb (SparseLU_info (snd solved)) Success)
       "Solving LSE failed" ;;;
     Ok (fst solved)) /\
  (forall k, (k < N_dofs)%nat ->
     fst (nth k flags (false, 0)) = dof_on_boundary fe_space_p k) /\
  (forall k, (k < N_dofs)%nat ->
     dof_on_boundary fe_space_p k = true ->
     nth k (snd system) 0 = u (dof_node fe_space_p k) /\
     forall x : VectorXd, length x = N_dofs ->
       nth k (mult (makeSparse (fst system)) x) 0 = nth k x 0) /\
  (SparseLU_info solver = Success ->
   SparseLU_info (snd solved) = Success ->
   SolveBVP fe_space_p u = Ok (fst solved)) /\
  (forall x, SolveBVP fe_space_p u = Ok x ->
     x = fst solved /\
     mult (makeSparse (fst system)) x = snd system /\
     length x = N_dofs /\
     forall k, (k < N_dofs)%nat ->
       dof_on_boundary fe_space_p k = true ->
       nth k x 0 = u (dof_node fe_space_p k)).
Proof.
  intros dofh N_dofs A flags system solver solved.
  assert (Hsystem : system = eliminated_system fe_space_p u).
  { unfold system, eliminated_system. rewrite load_vector_zero.
    reflexivity. }
  assert (Hsolver : solver = factorization fe_space_p u).
  { unfold solver, factorization. now rewrite Hsystem. }
  assert (Hsolved : solved = solve_outcome fe_space_p u).
  { unfold solved, solve_outcome. now rewrite Hsolver, Hsystem. }
  assert (Hflags : forall k, (k < N_dofs)%nat ->
            fst (nth k flags (false, 0)) = dof_on_boundary fe_space_p k).
  { intros k Hk. now apply Dirichlet_flags. }
  split; [rewrite Hsolver, Hsolved; apply SolveBVP_stages |].
  split; [exact Hflags |].
  split.
  { intros k Hk Hbd.
    destruct (elimination_fixes_component
                (fun gdof_idx => nth gdof_idx flags (false, 0)) A
                (repeat 0 N_dofs) k) as [Hrhs Hrow].
    - now rewrite repeat_length.
    - cbn beta. now rewrite Hflags.
    - split.
      + fold system in Hrhs. rewrite Hrhs. cbn beta.
        now apply Dirichlet_values.
      + intros x Hx. apply Hrow. now rewrite repeat_length. }
  split.
  { intros Hlu Hsolve. rewrite Hsolved. rewrite Hsolver in Hlu.
    rewrite Hsolved in Hsolve. now apply SolveBVP_success. }
  intros x Hok.
  apply SolveBVP_returns in Hok as [Hlu [Hsolve ->]].
  rewrite Hsolved, Hsystem.
  unfold solve_outcome, factorization in *.
  destruct (solve_exact _ _ Hlu Hsolve) as [Hsol Hlen].
  assert (Hsize : length (snd (eliminated_system fe_space_p u)) = N_dofs).
  { unfold eliminated_system. rewrite elimination_keeps_size.
    apply load_vector_length. }
  split; [reflexivity |].
  split; [exact Hsol |].
  split; [now rewrite Hlen |].
  intros k Hk Hbd.
  apply eliminated_system_pins_boundary; try assumption.
  now rewrite Hlen.
Qed.

Lemma SolveBVP_reproduces_Dirichlet_data_witness :
  SolveBVP (FE := ListFE.services Success) ListFE.square_with_centre coeff0 =
    Ok [0; 1; 1; 0; 0.5] /\
  [0; 1; 1; 0; 0.5] =
    fst (solve_outcome (FE := ListFE.services Success)
           ListFE.square_with_centre coeff0) /\
  mult (FEGeometry := ListFE.geometry Success)
    (makeSparse
       (fst (eliminated_system (FE := ListFE.services Success)
               ListFE.square_with_centre coeff0)))
    [0; 1; 1; 0; 0.5] =
    snd (eliminated_system (FE := ListFE.services Success)
           ListFE.square_with_centre coeff0) /\
  length [0; 1; 1; 0; 0.5] = 5%nat /\
  (forall k, (k < 5)%nat ->
     dof_on_boundary (FEGeometry := ListFE.geometry Success)
       ListFE.square_with_centre k = true ->
     nth k [0; 1; 1; 0; 0.5] 0 =
       coeff0 (dof_node (FEGeometry := ListFE.geometry Success)
                 ListFE.square_with_centre k)).
Proof.
  assert (Hok : SolveBVP (FE := ListFE.services Success)
                  ListFE.square_with_centre coeff0 = Ok [0; 1; 1; 0; 0.5]).
  { destruct (ListFE_square_with_centre_solve Success coeff0)
      as [H1 [H2 H3]].
    rewrite (SolveBVP_success _ _ H1 H2), H3. cbn [coeff0].
    do 6 f_equal. lra. }
  split; [exact Hok |].
  exact (proj2 (proj2 (proj2 (proj2
           (SolveBVP_reproduces_Dirichlet_data (ListFE_contracts Success)
              ListFE.square_with_centre coeff0)))) [0; 1; 1; 0; 0.5] Hok).
Defined.

(** ** The Laplacian of the bump function in the transition region *)

Lemma derivable_pt_lim_local (f g : R -> R) (x l eta : R) :
  0 < eta ->
  (forall s, Rabs (s - x) < eta -> f s = g s) ->
  derivable_pt_lim g x l -> derivable_pt_lim f x l.
Proof.
  intros Heta Hagree Hg eps Heps.
  destruct (Hg eps Heps) as [delta Hdelta].
  assert (Hmin : 0 < Rmin delta eta)
    by (apply Rmin_glb_lt; [apply cond_pos | exact Heta]).
  exists (mkposreal _ Hmin). intros h Hh Hlt. cbn [pos] in Hlt.
  rewrite (Hagree (x + h)), (Hagree x).
  - apply Hdelta; [exact Hh |].
    apply Rlt_le_trans with (Rmin delta eta); [exact Hlt | apply Rmin_l].
  - rewrite Rminus_diag, Rabs_R0. exact Heta.
  - replace (x + h - x) with h by ring.
    apply Rlt_le_trans with (Rmin delta eta); [exact Hlt | apply Rmin_r].
Qed.

Lemma has_laplacian_unique (F : Vector2d -> R) (y : Vector2d) (L L' : R) :
  has_laplacian F y L -> has_laplacian F y L' -> L = L'.
Proof.
  intros (D0 & D1 & l0 & l1 & delta & Hd & H0 & H1 & H00 & H11 & ->)
         (E0 & E1 & m0 & m1 & delta' & Hd' & G0 & G1 & G00 & G11 & ->).
  assert (Hmin : 0 < Rmin delta delta') by now apply Rmin_glb_lt.
  f_equal.
  - apply (uniqueness_limite D0 (coeff0 y)); [exact H00 |].
    apply (derivable_pt_lim_local D0 E0 _ _ (Rmin delta delta') Hmin);
      [| exact G00].
    intros s Hs. apply (uniqueness_limite (slice0 F y) s).
    + apply H0. apply Rlt_le_trans with (1 := Hs), Rmin_l.
    + apply G0. apply Rlt_le_trans with (1 := Hs), Rmin_r.
  - apply (uniqueness_limite D1 (coeff1 y)); [exact H11 |].
    apply (derivable_pt_lim_local D1 E1 _ _ (Rmin delta delta') Hmin);
      [| exact G11].
    intros s Hs. apply (uniqueness_limite (slice1 F y) s).
    + apply H1. apply Rlt_le_trans with (1 := Hs), Rmin_l.
    + apply G1. apply Rlt_le_trans with (1 := Hs), Rmin_r.
Qed.

Lemma rho_sqr (a b t : R) : rho a b t * rho a b t = (t - a) * (t - a) + b * b.
Proof.
  unfold rho. apply sqrt_sqrt.
  pose proof (Rle_0_sqr (t - a)). pose proof (Rle_0_sqr b).
  unfold Rsqr in *. lra.
Qed.

Lemma rho_derivative (a b t : R) :
  0 < rho a b t -> derivable_pt_lim (rho a b) t ((t - a) / rho a b t).
Proof.
  intros Hpos.
  assert (Hq : derivable_pt_lim (fun s => (s - a) * (s - a) + b * b) t
                 (2 * (t - a))).
  { intros eps Heps. exists (mkposreal eps Heps). intros h Hh Hlt.
    cbn [pos] in Hlt.
    replace (((t + h - a) * (t + h - a) + b * b -
              ((t - a) * (t - a) + b * b)) / h - 2 * (t - a))
      with h by (field; exact Hh).
    exact Hlt. }
  assert (Harg : 0 < (t - a) * (t - a) + b * b).
  { rewrite <- rho_sqr. now apply Rmult_lt_0_compat. }
  replace ((t - a) / rho a b t)
    with (/ (2 * sqrt ((t - a) * (t - a) + b * b)) * (2 * (t - a)))
    by (unfold rho in *; field; lra).
  apply (derivable_pt_lim_comp (fun s => (s - a) * (s - a) + b * b) sqrt).
  - exact Hq.
  - now apply derivable_pt_lim_sqrt.
Qed.

Lemma radial_first_derivative (a b t : R) :
  0 < rho a b t ->
  derivable_pt_lim (fun s => profile (rho a b s)) t
    (profile' (rho a b t) * ((t - a) / rho a b t)).
Proof.
  intros Hpos. apply (derivable_pt_lim_comp (rho a b) profile).
  - now apply rho_derivative.
  - apply profile_derivative.
Qed.

Lemma radial_second_derivative (a b t : R) :
  0 < rho a b t ->
  derivable_pt_lim (fun s => profile' (rho a b s) * ((s - a) / rho a b s)) t
    (profile'' (rho a b t) * ((t - a) / rho a b t) * ((t - a) / rho a b t) +
     profile' (rho a b t) * (b * b / (rho a b t * rho a b t * rho a b t))).
Proof.
  intros Hpos.
  replace (b * b / (rho a b t * rho a b t * rho a b t))
    with ((1 * rho a b t - (t - a) / rho a b t * (t - a)) / Rsqr (rho a b t)).
  2:{ unfold Rsqr.
      replace (b * b) with (rho a b t * rho a b t - (t - a) * (t - a))
        by (rewrite rho_sqr; ring).
      field. lra. }
  apply (derivable_pt_lim_mult (fun s => profile' (rho a b s))
           (fun s => (s - a) / rho a b s)).
  - apply (derivable_pt_lim_comp (rho a b) profile').
    + now apply rho_derivative.
    + apply profile'_derivative.
  - apply (derivable_pt_lim_div (fun s => s - a) (rho a b)).
    + intros eps Heps. exists (mkposreal 1 Rlt_0_1). intros h Hh _.
      replace ((t + h - a - (t - a)) / h - 1) with 0 by (field; exact Hh).
      now rewrite Rabs_R0.
    + now apply rho_derivative.
    + lra.
Qed.

(** Near a point of the open transition region the distance stays in it. *)
Lemma transition_is_open (a b t0 : R) :
  0.25 * sqrt 2 < rho a b t0 < 0.5 ->
  exists delta, 0 < delta /\
    forall t, Rabs (t - t0) < delta -> 0.25 * sqrt 2 < rho a b t < 0.5.
Proof.
  intros [H1 H2]. pose proof radii_ordered as [Hr _].
  assert (Hcont : continuity_pt (rho a b) t0).
  { apply derivable_continuous_pt.
    exists ((t0 - a) / rho a b t0). apply rho_derivative. lra. }
  set (eps := Rmin (rho a b t0 - 0.25 * sqrt 2) (0.5 - rho a b t0)).
  assert (Heps : 0 < eps) by (apply Rmin_glb_lt; lra).
  destruct (Hcont eps Heps) as [alp [Halp Hclose]].
  exists alp. split; [exact Halp |]. intros t Ht.
  destruct (Req_dec_T t0 t) as [<- | Hne]; [lra |].
  assert (Hdist : Rabs (rho a b t - rho a b t0) < eps).
  { apply (Hclose t). split; [| exact Ht].
    split; [exact I | exact Hne]. }
  apply Rabs_def2 in Hdist as [Hup Hlo].
  pose proof (Rmin_l (rho a b t0 - 0.25 * sqrt 2) (0.5 - rho a b t0)).
  pose proof (Rmin_r (rho a b t0 - 0.25 * sqrt 2) (0.5 - rho a b t0)).
  fold eps in H, H0. lra.
Qed.

Lemma norm_along_first (center y : Vector2d) (t : R) :
  norm (Vec2 t (coeff1 y) - center)%vec =
    rho (coeff0 center) (coeff1 y - coeff1 center) t.
Proof. reflexivity. Qed.

Lemma norm_along_second (center y : Vector2d) (t : R) :
  norm (Vec2 (coeff0 y) t - center)%vec =
    rho (coeff1 center) (coeff0 y - coeff0 center) t.
Proof.
  unfold norm, squaredNorm, dot, rho. cbn [vsub coeff0 coeff1].
  f_equal. ring.
Qed.

Lemma norm_as_rho (center y : Vector2d) :
  norm (y - center)%vec = rho (coeff0 center) (coeff1 y - coeff1 center) (coeff0 y)
  /\ norm (y - center)%vec =
     rho (coeff1 center) (coeff0 y - coeff0 center) (coeff1 y).
Proof.
  destruct y as [y0 y1]. split.
  - apply (norm_along_first center (Vec2 y0 y1) y0).
  - apply (norm_along_second center (Vec2 y0 y1) y1).
Qed.

(** The first partial derivative of [Psi] along a coordinate line, at a
    point of the transition region. *)
Lemma Psi_slice_derivative (center : Vector2d) (line : R -> Vector2d)
    (a b t : R) :
  (forall s, norm (line s - center)%vec = rho a b s) ->
  0.25 * sqrt 2 < rho a b t < 0.5 ->
  derivable_pt_lim (fun s => Psi.eval (Psi.make center) (line s)) t
    (profile' (rho a b t) * ((t - a) / rho a b t)).
Proof.
  intros Hline Ht. pose proof radii_ordered as [Hr _].
  destruct (transition_is_open a b t Ht) as [eta [Heta Hnear]].
  apply (derivable_pt_lim_local _ (fun s => profile (rho a b s)) _ _ eta Heta).
  - intros s Hs. rewrite Psi_eval_transition; rewrite Hline.
    + reflexivity.
    + now apply Hnear.
  - apply radial_first_derivative. lra.
Qed.

(** In the transition region [grad] is the gradient of [Psi]. *)
Lemma Psi_grad_is_gradient (center y : Vector2d) :
  let psi := Psi.make center in
  let d := norm (y - center)%vec in
  0.25 * sqrt 2 < d < 0.5 ->
  derivable_pt_lim (slice0 (Psi.eval psi) y) (coeff0 y)
    (coeff0 (Psi.grad psi y)) /\
  derivable_pt_lim (slice1 (Psi.eval psi) y) (coeff1 y)
    (coeff1 (Psi.grad psi y)).
Proof.
  intros psi d Hd. pose proof radii_ordered as [Hr _].
  destruct (norm_as_rho center y) as [Hd0 Hd1]. fold d in Hd0, Hd1.
  unfold psi. rewrite Psi_grad_transition by exact Hd. fold d.
  cbn [vscale vsub coeff0 coeff1]. split.
  - replace (-2 * cos (Psi.constant * (d - 0.5)) *
             sin (Psi.constant * (d - 0.5)) * (Psi.constant / d) *
             (coeff0 y - coeff0 center))
      with (profile' d * ((coeff0 y - coeff0 center) / d))
      by (unfold profile'; field; lra).
    rewrite Hd0.
    apply (Psi_slice_derivative center (fun s => Vec2 s (coeff1 y))).
    + intros s. apply norm_along_first.
    + now rewrite <- Hd0.
  - replace (-2 * cos (Psi.constant * (d - 0.5)) *
             sin (Psi.constant * (d - 0.5)) * (Psi.constant / d) *
             (coeff1 y - coeff1 center))
      with (profile' d * ((coeff1 y - coeff1 center) / d))
      by (unfold profile'; field; lra).
    rewrite Hd1.
    apply (Psi_slice_derivative center (fun s => Vec2 (coeff0 y) s)).
    + intros s. apply norm_along_second.
    + now rewrite <- Hd1.
Qed.

(** In the transition region the Laplacian of [Psi] is f''(d) + f'(d)/d. *)
Lemma Psi_eval_laplacian (center y : Vector2d) :
  let d := norm (y - center)%vec in
  0.25 * sqrt 2 < d < 0.5 ->
  has_laplacian (Psi.eval (Psi.make center)) y (radial_laplacian d).
Proof.
  intros d Hd. pose proof radii_ordered as [Hr _].
  destruct (norm_as_rho center y) as [Hd0 Hd1]. fold d in Hd0, Hd1.
  set (b0 := coeff1 y - coeff1 center) in *.
  set (b1 := coeff0 y - coeff0 center) in *.
  set (a0 := coeff0 center) in *. set (a1 := coeff1 center) in *.
  assert (Ht0 : 0.25 * sqrt 2 < rho a0 b0 (coeff0 y) < 0.5)
    by now rewrite <- Hd0.
  assert (Ht1 : 0.25 * sqrt 2 < rho a1 b1 (coeff1 y) < 0.5)
    by now rewrite <- Hd1.
  destruct (transition_is_open _ _ _ Ht0) as [e0 [He0 Hnear0]].
  destruct (transition_is_open _ _ _ Ht1) as [e1 [He1 Hnear1]].
  exists (fun t => profile' (rho a0 b0 t) * ((t - a0) / rho a0 b0 t)),
         (fun t => profile' (rho a1 b1 t) * ((t - a1) / rho a1 b1 t)),
         (profile'' d * (b1 / d) * (b1 / d) + profile' d * (b0 * b0 / (d * d * d))),
         (profile'' d * (b0 / d) * (b0 / d) + profile' d * (b1 * b1 / (d * d * d))),
         (Rmin e0 e1).
  split; [now apply Rmin_glb_lt |].
  split; [| split; [| split; [| split]]].
  - intros t Ht. unfold slice0.
    apply (Psi_slice_derivative center (fun s => Vec2 s (coeff1 y))).
    + intros s. apply norm_along_first.
    + apply Hnear0. apply Rlt_le_trans with (1 := Ht), Rmin_l.
  - intros t Ht. unfold slice1.
    apply (Psi_slice_derivative center (fun s => Vec2 (coeff0 y) s)).
    + intros s. apply norm_along_second.
    + apply Hnear1. apply Rlt_le_trans with (1 := Ht), Rmin_r.
  - rewrite Hd0. apply radial_second_derivative. lra.
  - rewrite Hd1. apply radial_second_derivative. lra.
  - unfold radial_laplacian.
    assert (Hsq : d * d = b1 * b1 + b0 * b0).
    { rewrite Hd0 at 1 2. rewrite rho_sqr. reflexivity. }
    transitivity (profile'' d * ((b1 * b1 + b0 * b0) / (d * d)) +
                  profile' d * ((b1 * b1 + b0 * b0) / (d * d * d))).
    + rewrite <- Hsq. field. lra.
    + field. lra.
Qed.

Lemma profile'_positive (d : R) : 0.25 * sqrt 2 < d < 0.5 -> 0 < profile' d.
Proof.
  intros Hd. unfold profile'.
  pose proof (cos_phase_small d Hd) as [Hc _].
  pose proof (sin_phase_small d Hd) as [Hs _].
  pose proof constant_bounds as [_ Hk].
  replace (-2 * Psi.constant * cos (Psi.constant * (d - 0.5)) *
           sin (Psi.constant * (d - 0.5)))
    with (2 * (- Psi.constant) * cos (Psi.constant * (d - 0.5)) *
          sin (Psi.constant * (d - 0.5))) by ring.
  repeat apply Rmult_lt_0_compat; lra.
Qed.

Lemma norm_sample_point :
  norm (Vec2 0.9 0.5 - Psi.default_center)%vec = 0.4.
Proof.
  unfold norm, squaredNorm, dot, Psi.default_center. cbn [vsub coeff0 coeff1].
  replace ((0.9 - 0.5) * (0.9 - 0.5) + (0.5 - 0.5) * (0.5 - 0.5))
    with (0.4 * 0.4) by lra.
  apply sqrt_square. lra.
Qed.

(** C3: in the transition region r1 < d < r2, [lapl] is the analytic
    Laplacian of the radial profile f(d) = cos^2 (c (d - 0.5)): it is
    f''(d) + f'(d)/d, where f' and f'' are the first and second derivative
    of f, and this number is the sum of the two second partial derivatives
    of [Psi] at y. *)
Theorem Psi_lapl_is_laplacian (center y : Vector2d) :
  let psi := Psi.make center in
  let d := norm (y - center)%vec in
  let c := PI / (0.5 * sqrt 2 - 1) in
  let f := fun r : R => cos (c * (r - 0.5)) ^ 2 in
  let f' := fun r : R => -2 * c * cos (c * (r - 0.5)) * sin (c * (r - 0.5)) in
  let f'' := fun r : R =>
    2 * c ^ 2 * (sin (c * (r - 0.5)) ^ 2 - cos (c * (r - 0.5)) ^ 2) in
  0.25 * sqrt 2 < d < 0.5 ->
  (forall r, derivable_pt_lim f r (f' r)) /\
  (forall r, derivable_pt_lim f' r (f'' r)) /\
  Psi.lapl psi y = f'' d + f' d / d /\
  has_laplacian (Psi.eval psi) y (Psi.lapl psi y).
Proof.
  intros psi d c f f' f'' Hd.
  split; [exact profile_derivative |].
  split; [exact profile'_derivative |].
  unfold psi. rewrite (Psi_lapl_transition center y Hd).
  split; [reflexivity |].
  exact (Psi_eval_laplacian center y Hd).
Qed.

Lemma Psi_lapl_is_laplacian_witness :
  Psi.lapl (Psi.make Psi.default_center) (Vec2 0.9 0.5) =
    profile'' (norm (Vec2 0.9 0.5 - Psi.default_center)%vec) +
    profile' (norm (Vec2 0.9 0.5 - Psi.default_center)%vec) /
      norm (Vec2 0.9 0.5 - Psi.default_center)%vec /\
  has_laplacian (Psi.eval (Psi.make Psi.default_center)) (Vec2 0.9 0.5)
    (Psi.lapl (Psi.make Psi.default_center) (Vec2 0.9 0.5)).
Proof.
  apply (Psi_lapl_is_laplacian Psi.default_center (Vec2 0.9 0.5)).
  rewrite norm_sample_point. pose proof sqrt2_bounds. lra.
Defined.

(** * Further properties of the boundary potentials *)

Lemma for_each_ext_in {A S : Type} (l : list A) (b1 b2 : S -> A -> result S) :
  (forall a s, In a l -> b1 s a = b2 s a) ->
  forall s, for_each l b1 s = for_each l b2 s.
Proof.
  induction l as [| a l IH]; intros Hext s; [reflexivity |].
  cbn [for_each]. rewrite (Hext a s (or_introl eq_refl)).
  destruct (b2 s a) as [s' | f]; cbn [bind]; [| reflexivity].
  apply IH. intros a' s'' Ha'. apply Hext. now right.
Qed.

Lemma for_each_app {A S : Type} (l1 l2 : list A) (b : S -> A -> result S) :
  forall s,
    for_each (l1 ++ l2) b s = (s' <- for_each l1 b s ;; for_each l2 b s').
Proof.
  induction l1 as [| a l1 IH]; intros s; [reflexivity |].
  cbn [app for_each]. destruct (b s a) as [s' | f]; cbn [bind];
    [apply IH | reflexivity].
Qed.

Section BoundaryLoopFacts.

Context {MP : MeshProvider}.
Variable K : Type.
Variable kern : Vector2d -> result K.

(** The body of the loop for an edge known to be flagged. *)
Let flagged_body (contrib : Vector2d -> K -> Geometry -> R) (acc : R)
    (e : Entity) : result R :=
  geo <- assert_nonnull (EntityGeometry e) "Missing geometry!" ;;
  k <- kern (edge_midpoint (Corners geo)) ;;
  Ok (acc + contrib (edge_midpoint (Corners geo)) k geo).

(** The guarded loop over all edges is the unguarded loop over the
    flagged ones. *)
Lemma boundary_loop_filter (flag : Entity -> bool)
    (contrib : Vector2d -> K -> Geometry -> R) (es : list Entity) :
  forall acc,
    for_each es
      (fun acc e => if flag e then flagged_body contrib acc e else Ok acc) acc
    = for_each (filter flag es) (flagged_body contrib) acc.
Proof.
  induction es as [| e es IH]; intros acc; [reflexivity |].
  cbn [for_each filter]. destruct (flag e).
  - cbn [for_each]. destruct (flagged_body contrib acc e); cbn [bind];
      [apply IH | reflexivity].
  - cbn [bind]. apply IH.
Qed.

Lemma flagged_loop_shift (contrib : Vector2d -> K -> Geometry -> R)
    (es : list Entity) (a : R) :
  forall acc,
    for_each es (flagged_body contrib) (a + acc) =
      (r <- for_each es (flagged_body contrib) acc ;; Ok (a + r)).
Proof.
  induction es as [| e es IH]; intros acc; [reflexivity |].
  cbn [for_each]. unfold flagged_body at 1 3.
  destruct (EntityGeometry e) as [geo |]; cbn [assert_nonnull bind];
    [| reflexivity].
  destruct (kern (edge_midpoint (Corners geo))) as [k | f]; cbn [bind];
    [| reflexivity].
  rewrite Rplus_assoc. apply IH.
Qed.

Lemma flagged_loop_returns (contrib : Vector2d -> K -> Geometry -> R)
    (es : list Entity) :
  forall acc r,
    for_each es (flagged_body contrib) acc = Ok r ->
    forall e, In e es ->
      exists geo k, EntityGeometry e = Some geo /\
                    kern (midpoint_of geo) = Ok k.
Proof.
  induction es as [| e es IH]; intros acc r Hok e' He'; [destruct He' |].
  cbn [for_each] in Hok. unfold flagged_body at 1 in Hok.
  destruct (EntityGeometry e) as [geo |] eqn:Hgeo;
    cbn [assert_nonnull bind] in Hok; [| discriminate].
  destruct (kern (edge_midpoint (Corners geo))) as [k | f] eqn:Hk;
    cbn [bind] in Hok; [| discriminate].
  destruct He' as [<- | He'].
  - exists geo, k. now split.
  - now apply (IH _ _ Hok).
Qed.

End BoundaryLoopFacts.

Section PotentialsAsLoops.

Context {MP : MeshProvider}.
Variable n : Vector2d -> Vector2d.

(** [PSL] and [PDL] as loops over the flagged edges only. *)
Lemma PSL_over_boundary_edges (mesh : Mesh) (v : Vector2d -> R)
    (x : Vector2d) :
  PSL true mesh v x =
    for_each (boundary_edges mesh)
      (fun acc e =>
         geo <- assert_nonnull (EntityGeometry e) "Missing geometry!" ;;
         Gm <- FundamentalSolution.eval (FundamentalSolution.make x)
                 (edge_midpoint (Corners geo)) ;;
         Ok (acc + v (edge_midpoint (Corners geo)) * Gm * Volume geo)) 0.
Proof.
  unfold PSL, boundary_edges.
  apply (boundary_loop_filter R
           (FundamentalSolution.eval (FundamentalSolution.make x))
           (flagEntitiesOnBoundary mesh 1)
           (fun m k geo => v m * k * Volume geo)).
Qed.

Lemma PDL_over_boundary_edges (mesh : Mesh) (v : Vector2d -> R)
    (x : Vector2d) :
  PDL n true mesh v x =
    for_each (boundary_edges mesh)
      (fun acc e =>
         geo <- assert_nonnull (EntityGeometry e) "Missing geometry!" ;;
         gradGm <- FundamentalSolution.grad (FundamentalSolution.make x)
                     (edge_midpoint (Corners geo)) ;;
         Ok (acc + v (edge_midpoint (Corners geo)) *
                   dot gradGm (n (edge_midpoint (Corners geo))) *
                   Volume geo)) 0.
Proof.
  unfold PDL, boundary_edges.
  apply (boundary_loop_filter Vector2d
           (FundamentalSolution.grad (FundamentalSolution.make x))
           (flagEntitiesOnBoundary mesh 1)
           (fun m k geo => v m * dot k (n m) * Volume geo)).
Qed.

Lemma eval_returns_away (x m : Vector2d) (k : R) :
  FundamentalSolution.eval (FundamentalSolution.make x) m = Ok k -> m <> x.
Proof.
  intros Hok ->. unfold FundamentalSolution.eval in Hok.
  cbn [FundamentalSolution.x_] in Hok. rewrite vneq_refl in Hok.
  discriminate.
Qed.

Lemma grad_returns_away (x m : Vector2d) (k : Vector2d) :
  FundamentalSolution.grad (FundamentalSolution.make x) m = Ok k -> m <> x.
Proof.
  intros Hok ->. unfold FundamentalSolution.grad in Hok.
  cbn [FundamentalSolution.x_] in Hok. rewrite vneq_refl in Hok.
  discriminate.
Qed.

End PotentialsAsLoops.

(** X1: [PSL] and [PDL] return a number exactly when every boundary-flagged
    edge has a geometry and no midpoint of such an edge is the evaluation
    point; otherwise they stop in an assertion. *)
Theorem potentials_return_iff_regular {MP : MeshProvider}
    (OuterNormalUnitSquare : Vector2d -> Vector2d)
    (mesh : Mesh) (v : Vector2d -> R) (x : Vector2d) :
  ((exists r, PSL true mesh v x = Ok r) <-> regular_at mesh x) /\
  ((exists r, PDL OuterNormalUnitSquare true mesh v x = Ok r) <->
   regular_at mesh x).
Proof.
  split; split.
  - intros [r Hok] e He. rewrite PSL_over_boundary_edges in Hok.
    destruct (flagged_loop_returns R _ (fun m k geo => v m * k * Volume geo)
                _ _ _ Hok e He) as [geo [k [Hgeo Hk]]].
    exists geo. split; [exact Hgeo |]. now apply eval_returns_away in Hk.
  - intros Hreg. eexists. now apply PSL_regular.
  - intros [r Hok] e He. rewrite PDL_over_boundary_edges in Hok.
    destruct (flagged_loop_returns Vector2d _
                (fun m k geo => v m * dot k (OuterNormalUnitSquare m) *
                                Volume geo)
                _ _ _ Hok e He) as [geo [k [Hgeo Hk]]].
    exists geo. split; [exact Hgeo |]. now apply grad_returns_away in Hk.
  - intros Hreg. eexists. now apply PDL_regular.
Qed.

Lemma same_failure_iff {A B : Type} (ra : result A) (rb : result B) :
  same_failure ra rb <-> (forall f, ra = Abort f <-> rb = Abort f).
Proof.
  destruct ra as [a | f], rb as [b | g]; cbn.
  - split; [intros _ f'; split; discriminate | trivial].
  - split; [intros [] |].
    intros H. discriminate (proj2 (H g) eq_refl).
  - split; [intros [] |].
    intros H. discriminate (proj1 (H f) eq_refl).
  - split.
    + intros -> f'. split; intros [= ->]; reflexivity.
    + intros H. now injection (proj1 (H f) eq_refl).
Qed.

Lemma potential_loops_fail_alike {MP : MeshProvider}
    (n : Vector2d -> Vector2d) (v w : Vector2d -> R) (x : Vector2d)
    (es : list Entity) :
  forall acc acc',
    same_failure
      (for_each es
         (fun acc e =>
            geo <- assert_nonnull (EntityGeometry e) "Missing geometry!" ;;
            Gm <- FundamentalSolution.eval (FundamentalSolution.make x)
                    (edge_midpoint (Corners geo)) ;;
            Ok (acc + v (edge_midpoint (Corners geo)) * Gm * Volume geo)) acc)
      (for_each es
         (fun acc e =>
            geo <- assert_nonnull (EntityGeometry e) "Missing geometry!" ;;
            gradGm <- FundamentalSolution.grad (FundamentalSolution.make x)
                        (edge_midpoint (Corners geo)) ;;
            Ok (acc + w (edge_midpoint (Corners geo)) *
                      dot gradGm (n (edge_midpoint (Corners geo))) *
                      Volume geo)) acc').
Proof.
  induction es as [| e es IH]; intros acc acc'; [exact I |].
  cbn [for_each].
  destruct (EntityGeometry e) as [geo |]; cbn [assert_nonnull bind];
    [| reflexivity].
  unfold FundamentalSolution.eval, FundamentalSolution.grad.
  cbn [FundamentalSolution.x_].
  destruct (vneq x (edge_midpoint (Corners geo)));
    cbn [LF_ASSERT_MSG bind]; [apply IH | reflexivity].
Qed.

(** X2: [PSL] and [PDL] fail on the same inputs and in the same check,
    whatever the two densities and the normal are: one stops in a failed
    assertion exactly when the other stops in it. *)
Theorem potentials_fail_alike {MP : MeshProvider}
    (OuterNormalUnitSquare : Vector2d -> Vector2d) (SOLUTION : bool)
    (mesh : Mesh) (v w : Vector2d -> R) (x : Vector2d) (f : Failure) :
  PSL SOLUTION mesh v x = Abort f <->
  PDL OuterNormalUnitSquare SOLUTION mesh w x = Abort f.
Proof.
  destruct SOLUTION.
  - apply same_failure_iff.
    rewrite PSL_over_boundary_edges, (PDL_over_boundary_edges _ mesh w x).
    apply potential_loops_fail_alike.
  - cbn. split; discriminate.
Qed.

(** X3: the mesh enters [PSL] and [PDL] only through its list of
    boundary-flagged edges: two meshes with the same flagged edges give the
    same outcome, whatever their other edges are. *)
Theorem potentials_ignore_interior_edges {MP : MeshProvider}
    (OuterNormalUnitSquare : Vector2d -> Vector2d) (SOLUTION : bool)
    (mesh mesh' : Mesh) (v : Vector2d -> R) (x : Vector2d) :
  filter (flagEntitiesOnBoundary mesh 1) (Entities mesh 1) =
    filter (flagEntitiesOnBoundary mesh' 1) (Entities mesh' 1) ->
  PSL SOLUTION mesh v x = PSL SOLUTION mesh' v x /\
  PDL OuterNormalUnitSquare SOLUTION mesh v x =
    PDL OuterNormalUnitSquare SOLUTION mesh' v x.
Proof.
  intros Hsame. destruct SOLUTION; [| now split].
  rewrite !PSL_over_boundary_edges, !PDL_over_boundary_edges.
  unfold boundary_edges. now rewrite Hsame.
Qed.

(** X4: the density and the normal are sampled only at the midpoints of
    the boundary-flagged edges: changing them elsewhere changes nothing. *)
Theorem potentials_sample_at_midpoints {MP : MeshProvider}
    (n n' : Vector2d -> Vector2d) (SOLUTION : bool)
    (mesh : Mesh) (v v' : Vector2d -> R) (x : Vector2d) :
  (forall e geo,
     In e (filter (flagEntitiesOnBoundary mesh 1) (Entities mesh 1)) ->
     EntityGeometry e = Some geo ->
     let m := (0.5 *: (col (Corners geo) 0 + col (Corners geo) 1))%vec in
     v m = v' m /\ n m = n' m) ->
  PSL SOLUTION mesh v x = PSL SOLUTION mesh v' x /\
  PDL n SOLUTION mesh v x = PDL n' SOLUTION mesh v' x.
Proof.
  intros Hagree. destruct SOLUTION; [| now split].
  rewrite !PSL_over_boundary_edges, !PDL_over_boundary_edges.
  split; apply for_each_ext_in; intros e acc He;
    destruct (EntityGeometry e) as [geo |] eqn:Hgeo;
    cbn [assert_nonnull bind]; trivial;
    destruct (Hagree e geo He Hgeo) as [Hv Hn];
    unfold edge_midpoint; cbn zeta in Hv, Hn; now rewrite Hv, ?Hn.
Qed.

Lemma potentials_ignore_interior_edges_witness :
  PSL (MP := ListMesh.provider) true ListMesh.unit_square coeff0
      (Vec2 0.3 0.4) =
  PSL (MP := ListMesh.provider) true
      [ ListMesh.segment (Vec2 0 0) (Vec2 1 0) true;
        ListMesh.segment (Vec2 1 0) (Vec2 1 1) true;
        ListMesh.segment (Vec2 1 1) (Vec2 0 1) true;
        ListMesh.segment (Vec2 0 1) (Vec2 0 0) true ] coeff0 (Vec2 0.3 0.4) /\
  PDL (MP := ListMesh.provider) ListMesh.normal true ListMesh.unit_square
      coeff0 (Vec2 0.3 0.4) =
  PDL (MP := ListMesh.provider) ListMesh.normal true
      [ ListMesh.segment (Vec2 0 0) (Vec2 1 0) true;
        ListMesh.segment (Vec2 1 0) (Vec2 1 1) true;
        ListMesh.segment (Vec2 1 1) (Vec2 0 1) true;
        ListMesh.segment (Vec2 0 1) (Vec2 0 0) true ] coeff0 (Vec2 0.3 0.4).
Proof.
  apply (potentials_ignore_interior_edges (MP := ListMesh.provider)
           ListMesh.normal true ListMesh.unit_square).
  reflexivity.
Defined.

Lemma potentials_sample_at_midpoints_witness :
  PSL (MP := ListMesh.provider) true ListMesh.unit_square coeff0
      (Vec2 0.3 0.4) =
  PSL (MP := ListMesh.provider) true ListMesh.unit_square
      (fun m => coeff0 m + (coeff0 m - 0.5) * (coeff1 m - 0.5))
      (Vec2 0.3 0.4) /\
  PDL (MP := ListMesh.provider) ListMesh.normal true ListMesh.unit_square
      coeff0 (Vec2 0.3 0.4) =
  PDL (MP := ListMesh.provider) ListMesh.normal true ListMesh.unit_square
      (fun m => coeff0 m + (coeff0 m - 0.5) * (coeff1 m - 0.5))
      (Vec2 0.3 0.4).
Proof.
  apply (potentials_sample_at_midpoints (MP := ListMesh.provider)
           ListMesh.normal ListMesh.normal true ListMesh.unit_square).
  intros e geo He Hgeo. cbn in He.
  destruct He as [<- | [<- | [<- | [<- | []]]]];
    injection Hgeo as <-; cbn; split; try reflexivity; nra.
Defined.

(** ** Order and splitting of the boundary edges *)

Lemma Rsum_permutation (l l' : list R) : Permutation l l' -> Rsum l = Rsum l'.
Proof.
  induction 1 as [| a l l' _ IH | a b l | l l' l'' _ IH1 _ IH2].
  - reflexivity.
  - rewrite !Rsum_cons. now rewrite IH.
  - rewrite !Rsum_cons. ring.
  - now rewrite IH1.
Qed.

Lemma geometries_permutation {MP : MeshProvider} (es es' : list Entity) :
  Permutation es es' -> Permutation (geometries es) (geometries es').
Proof. intros H. unfold geometries. now apply Permutation_flat_map. Qed.

(** X5: over the reals the outcome does not depend on the order in which
    the boundary edges are visited: where the calls return, two meshes whose
    flagged edges are permutations of one another give the same numbers. *)
Theorem potentials_order_independent {MP : MeshProvider}
    (OuterNormalUnitSquare : Vector2d -> Vector2d)
    (mesh mesh' : Mesh) (v : Vector2d -> R) (x : Vector2d) :
  Permutation
    (filter (flagEntitiesOnBoundary mesh 1) (Entities mesh 1))
    (filter (flagEntitiesOnBoundary mesh' 1) (Entities mesh' 1)) ->
  (exists r, PSL true mesh v x = Ok r) ->
  PSL true mesh' v x = PSL true mesh v x /\
  PDL OuterNormalUnitSquare true mesh' v x =
    PDL OuterNormalUnitSquare true mesh v x.
Proof.
  intros Hperm Hret.
  assert (Hreg : regular_at mesh x).
  { destruct Hret as [r Hok]. intros e He.
    rewrite PSL_over_boundary_edges in Hok.
    destruct (flagged_loop_returns R _ (fun m k geo => v m * k * Volume geo)
                _ _ _ Hok e He) as [geo [k [Hgeo Hk]]].
    exists geo. split; [exact Hgeo |]. now apply eval_returns_away in Hk. }
  assert (Hreg' : regular_at mesh' x).
  { intros e He. apply Hreg. unfold boundary_edges in *.
    apply Permutation_in with (1 := Permutation_sym Hperm). exact He. }
  rewrite !PSL_regular, !PDL_regular by assumption.
  unfold PSL_sum, PDL_sum, boundary_edges.
  split; f_equal; apply Rsum_permutation, Permutation_map,
    geometries_permutation, Permutation_sym, Hperm.
Qed.

Lemma potentials_order_independent_witness :
  PSL (MP := ListMesh.provider) true
      [ ListMesh.segment (Vec2 0 1) (Vec2 0 0) true;
        ListMesh.segment (Vec2 0 0) (Vec2 1 1) false;
        ListMesh.segment (Vec2 1 1) (Vec2 0 1) true;
        ListMesh.segment (Vec2 1 0) (Vec2 1 1) true;
        ListMesh.segment (Vec2 0 0) (Vec2 1 0) true ] coeff0 (Vec2 0.3 0.4) =
  PSL (MP := ListMesh.provider) true ListMesh.unit_square coeff0
      (Vec2 0.3 0.4) /\
  PDL (MP := ListMesh.provider) ListMesh.normal true
      [ ListMesh.segment (Vec2 0 1) (Vec2 0 0) true;
        ListMesh.segment (Vec2 0 0) (Vec2 1 1) false;
        ListMesh.segment (Vec2 1 1) (Vec2 0 1) true;
        ListMesh.segment (Vec2 1 0) (Vec2 1 1) true;
        ListMesh.segment (Vec2 0 0) (Vec2 1 0) true ] coeff0 (Vec2 0.3 0.4) =
  PDL (MP := ListMesh.provider) ListMesh.normal true ListMesh.unit_square
      coeff0 (Vec2 0.3 0.4).
Proof.
  apply (potentials_order_independent (MP := ListMesh.provider)
           ListMesh.normal ListMesh.unit_square).
  - cbn. apply Permutation_rev.
  - eexists. apply PSL_regular, unit_square_regular.
    + exact ListMesh_unit_square_boundary.
    + exact interior_point.
Defined.

(** X6: the potentials add up over a split of the boundary: when the
    flagged edges of a mesh are those of a first mesh followed by those of a
    second, its potential is the sum of the two potentials, and it stops in
    the first failure of the two. *)
Theorem potentials_additive {MP : MeshProvider}
    (OuterNormalUnitSquare : Vector2d -> Vector2d) (SOLUTION : bool)
    (mesh mesh1 mesh2 : Mesh) (v : Vector2d -> R) (x : Vector2d) :
  filter (flagEntitiesOnBoundary mesh 1) (Entities mesh 1) =
    filter (flagEntitiesOnBoundary mesh1 1) (Entities mesh1 1) ++
    filter (flagEntitiesOnBoundary mesh2 1) (Entities mesh2 1) ->
  PSL SOLUTION mesh v x =
    lift2 Rplus (PSL SOLUTION mesh1 v x) (PSL SOLUTION mesh2 v x) /\
  PDL OuterNormalUnitSquare SOLUTION mesh v x =
    lift2 Rplus (PDL OuterNormalUnitSquare SOLUTION mesh1 v x)
      (PDL OuterNormalUnitSquare SOLUTION mesh2 v x).
Proof.
  intros Hsplit. destruct SOLUTION.
  - rewrite !PSL_over_boundary_edges, !PDL_over_boundary_edges.
    unfold boundary_edges. rewrite Hsplit, !for_each_app. unfold lift2.
    split.
    + destruct (for_each (filter _ (Entities mesh1 1)) _ 0) as [s |];
        cbn [bind]; [| reflexivity].
      replace s with (s + 0) at 1 by ring.
      apply (flagged_loop_shift R
               (FundamentalSolution.eval (FundamentalSolution.make x))
               (fun m k geo => v m * k * Volume geo)).
    + destruct (for_each (filter _ (Entities mesh1 1)) _ 0) as [s |];
        cbn [bind]; [| reflexivity].
      replace s with (s + 0) at 1 by ring.
      apply (flagged_loop_shift Vector2d
               (FundamentalSolution.grad (FundamentalSolution.make x))
               (fun m k geo => v m * dot k (OuterNormalUnitSquare m) *
                               Volume geo)).
  - cbn. split; f_equal; ring.
Qed.

Lemma potentials_additive_witness :
  PSL (MP := ListMesh.provider) true ListMesh.unit_square coeff0
      (Vec2 0.3 0.4) =
  lift2 Rplus
    (PSL (MP := ListMesh.provider) true
       [ ListMesh.segment (Vec2 0 0) (Vec2 1 0) true;
         ListMesh.segment (Vec2 1 0) (Vec2 1 1) true ] coeff0 (Vec2 0.3 0.4))
    (PSL (MP := ListMesh.provider) true
       [ ListMesh.segment (Vec2 1 1) (Vec2 0 1) true;
         ListMesh.segment (Vec2 0 1) (Vec2 0 0) true ] coeff0 (Vec2 0.3 0.4))
  /\
  PDL (MP := ListMesh.provider) ListMesh.normal true ListMesh.unit_square
      coeff0 (Vec2 0.3 0.4) =
  lift2 Rplus
    (PDL (MP := ListMesh.provider) ListMesh.normal true
       [ ListMesh.segment (Vec2 0 0) (Vec2 1 0) true;
         ListMesh.segment (Vec2 1 0) (Vec2 1 1) true ] coeff0 (Vec2 0.3 0.4))
    (PDL (MP := ListMesh.provider) ListMesh.normal true
       [ ListMesh.segment (Vec2 1 1) (Vec2 0 1) true;
         ListMesh.segment (Vec2 0 1) (Vec2 0 0) true ] coeff0 (Vec2 0.3 0.4)).
Proof.
  apply (potentials_additive (MP := ListMesh.provider) ListMesh.normal true
           ListMesh.unit_square).
  reflexivity.
Defined.

(** ** A bound in terms of the density *)

Lemma geometries_in {MP : MeshProvider} (es : list Entity) (geo : Geometry) :
  In geo (geometries es) ->
  exists e, In e es /\ EntityGeometry e = Some geo.
Proof.
  unfold geometries. intros Hin. apply in_flat_map in Hin as [e [He Hgeo]].
  exists e. split; [exact He |].
  destruct (EntityGeometry e) as [geo' |]; [| destruct Hgeo].
  destruct Hgeo as [-> | []]. reflexivity.
Qed.

Lemma weighted_sum_bound {A : Type} (val ker vol : A -> R) (M : R)
    (l : list A) :
  (forall a, In a l -> Rabs (val a) <= M /\ 0 <= vol a) ->
  Rabs (Rsum (map (fun a => val a * ker a * vol a) l)) <=
    M * Rsum (map (fun a => Rabs (ker a) * vol a) l).
Proof.
  induction l as [| a l IH]; intros Hall.
  - cbn. rewrite Rabs_R0. lra.
  - cbn [map]. rewrite !Rsum_cons.
    destruct (Hall a (or_introl eq_refl)) as [Hval Hvol].
    assert (Hrest : Rabs (Rsum (map (fun a => val a * ker a * vol a) l)) <=
                    M * Rsum (map (fun a => Rabs (ker a) * vol a) l)).
    { apply IH. intros a' Ha'. apply Hall. now right. }
    assert (Hhead : Rabs (val a * ker a * vol a) <= M * (Rabs (ker a) * vol a)).
    { rewrite !Rabs_mult, (Rabs_pos_eq (vol a)) by exact Hvol.
      rewrite Rmult_assoc. apply Rmult_le_compat_r; [| exact Hval].
      apply Rmult_le_pos; [apply Rabs_pos | exact Hvol]. }
    pose proof (Rabs_triang (val a * ker a * vol a)
                  (Rsum (map (fun a => val a * ker a * vol a) l))).
    lra.
Qed.

(** X7: where the calls return and the edge volumes are not negative, a
    density bounded by M gives potentials bounded by M times the sum over
    the boundary edges of |G_x(m)| |e|, respectively of
    |grad G_x(m) . n(m)| |e|. *)
Theorem potentials_bounded_by_density {MP : MeshProvider}
    (OuterNormalUnitSquare : Vector2d -> Vector2d)
    (mesh : Mesh) (v : Vector2d -> R) (x : Vector2d) (M : R) :
  regular_at mesh x ->
  (forall m, Rabs (v m) <= M) ->
  (forall e geo, In e (boundary_edges mesh) ->
     EntityGeometry e = Some geo -> 0 <= Volume geo) ->
  (exists r, PSL true mesh v x = Ok r /\
     Rabs r <= M * Rsum (map (fun geo => Rabs (G_x x (midpoint_of geo)) *
                                        Volume geo)
                             (geometries (boundary_edges mesh)))) /\
  (exists r, PDL OuterNormalUnitSquare true mesh v x = Ok r /\
     Rabs r <= M * Rsum (map (fun geo =>
                                Rabs (dot (gradG_x x (midpoint_of geo))
                                        (OuterNormalUnitSquare
                                           (midpoint_of geo))) *
                                Volume geo)
                             (geometries (boundary_edges mesh)))).
Proof.
  intros Hreg Hv Hvol.
  assert (Hall : forall geo, In geo (geometries (boundary_edges mesh)) ->
            Rabs (v (midpoint_of geo)) <= M /\ 0 <= Volume geo).
  { intros geo Hin. split; [apply Hv |].
    destruct (geometries_in _ _ Hin) as [e [He Hgeo]].
    now apply (Hvol e geo). }
  split; eexists; (split; [now (apply PSL_regular || apply PDL_regular) |]).
  - unfold PSL_sum.
    apply (weighted_sum_bound (fun geo => v (midpoint_of geo))
             (fun geo => G_x x (midpoint_of geo)) Volume M _ Hall).
  - unfold PDL_sum.
    apply (weighted_sum_bound (fun geo => v (midpoint_of geo))
             (fun geo => dot (gradG_x x (midpoint_of geo))
                           (OuterNormalUnitSquare (midpoint_of geo)))
             Volume M _ Hall).
Qed.

Lemma potentials_bounded_by_density_witness :
  (exists r, PSL (MP := ListMesh.provider) true ListMesh.unit_square
               (fun _ => 1) (Vec2 0.3 0.4) = Ok r /\
     Rabs r <= 1 * Rsum (map (fun geo =>
                                Rabs (G_x (Vec2 0.3 0.4)
                                        (midpoint_of (MP := ListMesh.provider)
                                           geo)) *
                                Volume (MeshProvider := ListMesh.provider) geo)
                             (geometries (MP := ListMesh.provider)
                                (boundary_edges (MP := ListMesh.provider)
                                   ListMesh.unit_square)))) /\
  (exists r, PDL (MP := ListMesh.provider) ListMesh.normal true
               ListMesh.unit_square (fun _ => 1) (Vec2 0.3 0.4) = Ok r /\
     Rabs r <= 1 * Rsum (map (fun geo =>
                                Rabs (dot (gradG_x (Vec2 0.3 0.4)
                                             (midpoint_of
                                                (MP := ListMesh.provider) geo))
                                        (ListMesh.normal
                                           (midpoint_of
                                              (MP := ListMesh.provider) geo))) *
                                Volume (MeshProvider := ListMesh.provider) geo)
                             (geometries (MP := ListMesh.provider)
                                (boundary_edges (MP := ListMesh.provider)
                                   ListMesh.unit_square)))).
Proof.
  apply (potentials_bounded_by_density (MP := ListMesh.provider)
           ListMesh.normal ListMesh.unit_square (fun _ => 1) (Vec2 0.3 0.4) 1).
  - apply unit_square_regular.
    + exact ListMesh_unit_square_boundary.
    + exact interior_point.
  - intros m. rewrite Rabs_R1. lra.
  - intros e geo _ _. apply norm_nonneg.
Defined.

(** * Further properties of the reference kernels *)

Lemma vneq_sym (u w : Vector2d) : vneq u w = vneq w u.
Proof.
  destruct (vneq w u) eqn:E.
  - apply vneq_true_iff. apply vneq_true_iff in E. congruence.
  - apply not_true_iff_false. apply not_true_iff_false in E.
    rewrite vneq_true_iff in *. intros H. apply E. congruence.
Qed.

Lemma squaredNorm_sub_sym (u w : Vector2d) :
  squaredNorm (u - w)%vec = squaredNorm (w - u)%vec.
Proof. unfold squaredNorm, dot. cbn [vsub coeff0 coeff1]. ring. Qed.

Lemma norm_sub_sym (u w : Vector2d) : norm (u - w)%vec = norm (w - u)%vec.
Proof. unfold norm. now rewrite squaredNorm_sub_sym. Qed.

(** X8: the fundamental solution is symmetric in its two points and its
    gradient antisymmetric, the assertion included: G(x,y) = G(y,x) and
    gradG(y,x) = - gradG(x,y), and both calls stop for x = y. *)
Theorem G_symmetric (x y : Vector2d) :
  Reference.G y x = Reference.G x y /\
  Reference.gradG y x =
    (g <- Reference.gradG x y ;; Ok ((-1) *: g)%vec).
Proof.
  unfold Reference.G, Reference.gradG.
  rewrite (vneq_sym y x), (norm_sub_sym y x), (squaredNorm_sub_sym y x).
  split; [reflexivity |].
  destruct (vneq x y); cbn [LF_ASSERT_MSG bind]; [| reflexivity].
  f_equal. unfold vdiv, vscale, vsub. cbn [coeff0 coeff1].
  f_equal; unfold Rdiv; ring.
Qed.

Lemma norm_pos_of_neq (u w : Vector2d) : u <> w -> 0 < norm (u - w)%vec.
Proof.
  intros Hne. destruct (norm_nonneg (u - w)%vec) as [Hpos | Hzero];
    [exact Hpos |].
  exfalso. apply Hne.
  assert (Hsq : squaredNorm (u - w)%vec = 0).
  { rewrite <- norm_sqr, <- Hzero. ring. }
  unfold squaredNorm, dot in Hsq. cbn [vsub coeff0 coeff1] in Hsq.
  destruct (Rplus_sqr_eq_0 _ _ Hsq) as [H0 H1].
  apply Vector2d_ext; lra.
Qed.

(** X9: away from x the sign of G(x,y) is decided by the distance |x - y|:
    positive below 1, zero at 1, negative above. *)
Theorem G_sign (x y : Vector2d) :
  y <> x ->
  exists r, Reference.G x y = Ok r /\
    (norm (x - y)%vec < 1 -> 0 < r) /\
    (norm (x - y)%vec = 1 -> r = 0) /\
    (1 < norm (x - y)%vec -> r < 0).
Proof.
  intros Hne.
  assert (Hpos : 0 < norm (x - y)%vec) by (apply norm_pos_of_neq; congruence).
  exists (G_x x y). split.
  - rewrite <- eval_is_reference_G. apply eval_away. congruence.
  - unfold G_x. pose proof PI_RGT_0 as Hpi.
    assert (Hk : 0 < 1 / (2 * PI)) by (apply Rdiv_lt_0_compat; lra).
    repeat split.
    + intros Hlt. pose proof (ln_increasing _ _ Hpos Hlt) as Hln.
      rewrite ln_1 in Hln. nra.
    + intros ->. rewrite ln_1. ring.
    + intros Hgt. pose proof (ln_increasing _ _ Rlt_0_1 Hgt) as Hln.
      rewrite ln_1 in Hln. nra.
Qed.

Lemma G_sign_witness :
  exists r, Reference.G (Vec2 0 0) (Vec2 1 0) = Ok r /\
    (norm (Vec2 0 0 - Vec2 1 0)%vec < 1 -> 0 < r) /\
    (norm (Vec2 0 0 - Vec2 1 0)%vec = 1 -> r = 0) /\
    (1 < norm (Vec2 0 0 - Vec2 1 0)%vec -> r < 0).
Proof.
  apply (G_sign (Vec2 0 0) (Vec2 1 0)).
  intros H. apply (f_equal coeff0) in H. cbn in H. lra.
Defined.

Lemma norm_vdiv (u : Vector2d) (s : R) :
  0 < s -> norm (u /: s)%vec = norm u / s.
Proof.
  intros Hs.
  replace (u /: s)%vec with ((/ s) *: u)%vec.
  - rewrite norm_vscale, Rabs_pos_eq.
    + unfold Rdiv. ring.
    + left. now apply Rinv_0_lt_compat.
  - unfold vscale, vdiv, Rdiv. f_equal; ring.
Qed.

(** X10: away from x the gradient of the fundamental solution has length
    1 / (2 pi |x - y|). *)
Theorem gradG_norm (x y : Vector2d) :
  y <> x ->
  exists g, Reference.gradG x y = Ok g /\
    norm g = 1 / (2 * PI * norm (x - y)%vec).
Proof.
  intros Hne.
  assert (Hpos : 0 < norm (x - y)%vec) by (apply norm_pos_of_neq; congruence).
  pose proof PI_RGT_0 as Hpi.
  eexists. split.
  - unfold Reference.gradG. rewrite vneq_of_neq by congruence. reflexivity.
  - rewrite <- norm_sqr. rewrite norm_vdiv.
    + field. lra.
    + apply Rmult_lt_0_compat; [lra |]. now apply pow_lt.
Qed.

Lemma gradG_norm_witness :
  exists g, Reference.gradG (Vec2 0 0) (Vec2 1 0) = Ok g /\
    norm g = 1 / (2 * PI * norm (Vec2 0 0 - Vec2 1 0)%vec).
Proof.
  apply (gradG_norm (Vec2 0 0) (Vec2 1 0)).
  intros H. apply (f_equal coeff0) in H. cbn in H. lra.
Defined.

(** ** The fundamental solution as a function of y *)

Lemma rho_positive_near (a b t0 : R) :
  0 < rho a b t0 ->
  exists delta, 0 < delta /\
    forall t, Rabs (t - t0) < delta -> 0 < rho a b t.
Proof.
  intros Hpos.
  assert (Hcont : continuity_pt (rho a b) t0).
  { apply derivable_continuous_pt.
    exists ((t0 - a) / rho a b t0). now apply rho_derivative. }
  destruct (Hcont (rho a b t0) Hpos) as [alp [Halp Hclose]].
  exists alp. split; [exact Halp |]. intros t Ht.
  destruct (Req_dec_T t0 t) as [<- | Hne]; [exact Hpos |].
  assert (Hdist : Rabs (rho a b t - rho a b t0) < rho a b t0).
  { apply (Hclose t). split; [| exact Ht]. split; [exact I | exact Hne]. }
  apply Rabs_def2 in Hdist as [_ Hlo]. lra.
Qed.

Lemma log_rho_derivative (a b t : R) :
  0 < rho a b t ->
  derivable_pt_lim (fun s => - (1 / (2 * PI)) * ln (rho a b s)) t
    (- (1 / (2 * PI)) * ((t - a) / (rho a b t * rho a b t))).
Proof.
  intros Hpos.
  apply (derivable_pt_lim_scal (fun s => ln (rho a b s)) (- (1 / (2 * PI)))).
  replace ((t - a) / (rho a b t * rho a b t))
    with (/ rho a b t * ((t - a) / rho a b t)) by (field; lra).
  apply (derivable_pt_lim_comp (rho a b) ln).
  - now apply rho_derivative.
  - now apply derivable_pt_lim_ln.
Qed.

Lemma log_rho_second_derivative (a b t : R) :
  0 < rho a b t ->
  derivable_pt_lim
    (fun s => - (1 / (2 * PI)) * ((s - a) / (rho a b s * rho a b s))) t
    (- (1 / (2 * PI)) *
       ((b * b - (t - a) * (t - a)) /
        (rho a b t * rho a b t * (rho a b t * rho a b t)))).
Proof.
  intros Hpos.
  assert (Hq : 0 < (t - a) * (t - a) + b * b).
  { rewrite <- rho_sqr. now apply Rmult_lt_0_compat. }
  apply (derivable_pt_lim_local _
           (fun s => - (1 / (2 * PI)) *
                     ((s - a) / ((s - a) * (s - a) + b * b))) _ _ 1 Rlt_0_1).
  { intros s _. now rewrite rho_sqr. }
  apply (derivable_pt_lim_scal
           (fun s => (s - a) / ((s - a) * (s - a) + b * b))
           (- (1 / (2 * PI)))).
  rewrite rho_sqr.
  replace ((b * b - (t - a) * (t - a)) /
           (((t - a) * (t - a) + b * b) * ((t - a) * (t - a) + b * b)))
    with ((1 * ((t - a) * (t - a) + b * b) - 2 * (t - a) * (t - a)) /
          Rsqr ((t - a) * (t - a) + b * b))
    by (unfold Rsqr; field; lra).
  apply (derivable_pt_lim_div (fun s => s - a)
           (fun s => (s - a) * (s - a) + b * b)).
  - intros eps Heps. exists (mkposreal 1 Rlt_0_1). intros h Hh _.
    replace ((t + h - a - (t - a)) / h - 1) with 0 by (field; exact Hh).
    now rewrite Rabs_R0.
  - intros eps Heps. exists (mkposreal eps Heps). intros h Hh Hlt.
    cbn [pos] in Hlt.
    replace (((t + h - a) * (t + h - a) + b * b -
              ((t - a) * (t - a) + b * b)) / h - 2 * (t - a))
      with h by (field; exact Hh).
    exact Hlt.
  - lra.
Qed.

Lemma G_x_along_first (x y : Vector2d) (t : R) :
  G_x x (Vec2 t (coeff1 y)) =
    - (1 / (2 * PI)) * ln (rho (coeff0 x) (coeff1 x - coeff1 y) t).
Proof.
  unfold G_x, norm, squaredNorm, dot, rho. cbn [vsub coeff0 coeff1].
  do 3 f_equal. ring.
Qed.

Lemma G_x_along_second (x y : Vector2d) (t : R) :
  G_x x (Vec2 (coeff0 y) t) =
    - (1 / (2 * PI)) * ln (rho (coeff1 x) (coeff0 x - coeff0 y) t).
Proof.
  unfold G_x, norm, squaredNorm, dot, rho. cbn [vsub coeff0 coeff1].
  do 3 f_equal. ring.
Qed.

Lemma norm_as_rho_from (x y : Vector2d) :
  norm (x - y)%vec = rho (coeff0 x) (coeff1 x - coeff1 y) (coeff0 y) /\
  norm (x - y)%vec = rho (coeff1 x) (coeff0 x - coeff0 y) (coeff1 y).
Proof.
  unfold norm, squaredNorm, dot, rho. cbn [vsub coeff0 coeff1].
  split; f_equal; ring.
Qed.

(** X11: away from x, [gradG] is the gradient of [G] with respect to y:
    its two components are the partial derivatives of y |-> G(x,y). *)
Theorem gradG_is_gradient (x y : Vector2d) :
  (forall y', y' <> x -> Reference.G x y' = Ok (G_x x y')) /\
  (y <> x ->
   exists g, Reference.gradG x y = Ok g /\
     derivable_pt_lim (slice0 (G_x x) y) (coeff0 y) (coeff0 g) /\
     derivable_pt_lim (slice1 (G_x x) y) (coeff1 y) (coeff1 g)).
Proof.
  split.
  { intros y' Hne. rewrite <- eval_is_reference_G. apply eval_away.
    congruence. }
  intros Hne.
  assert (Hpos : 0 < norm (x - y)%vec) by (apply norm_pos_of_neq; congruence).
  destruct (norm_as_rho_from x y) as [H0 H1].
  pose proof PI_RGT_0 as Hpi.
  eexists. split.
  { unfold Reference.gradG. rewrite vneq_of_neq by congruence. reflexivity. }
  rewrite <- norm_sqr. cbn [vdiv vsub coeff0 coeff1]. split.
  - apply (derivable_pt_lim_local _
             (fun s => - (1 / (2 * PI)) *
                       ln (rho (coeff0 x) (coeff1 x - coeff1 y) s))
             _ _ 1 Rlt_0_1).
    { intros s _. apply G_x_along_first. }
    replace ((coeff0 x - coeff0 y) / (2 * PI * norm (x - y)%vec ^ 2))
      with (- (1 / (2 * PI)) *
            ((coeff0 y - coeff0 x) /
             (rho (coeff0 x) (coeff1 x - coeff1 y) (coeff0 y) *
              rho (coeff0 x) (coeff1 x - coeff1 y) (coeff0 y))))
      by (rewrite <- H0; field; lra).
    apply log_rho_derivative. now rewrite <- H0.
  - apply (derivable_pt_lim_local _
             (fun s => - (1 / (2 * PI)) *
                       ln (rho (coeff1 x) (coeff0 x - coeff0 y) s))
             _ _ 1 Rlt_0_1).
    { intros s _. apply G_x_along_second. }
    replace ((coeff1 x - coeff1 y) / (2 * PI * norm (x - y)%vec ^ 2))
      with (- (1 / (2 * PI)) *
            ((coeff1 y - coeff1 x) /
             (rho (coeff1 x) (coeff0 x - coeff0 y) (coeff1 y) *
              rho (coeff1 x) (coeff0 x - coeff0 y) (coeff1 y))))
      by (rewrite <- H1; field; lra).
    apply log_rho_derivative. now rewrite <- H1.
Qed.

Lemma gradG_is_gradient_witness :
  exists g, Reference.gradG (Vec2 0 0) (Vec2 1 0) = Ok g /\
    derivable_pt_lim (slice0 (G_x (Vec2 0 0)) (Vec2 1 0)) 1 (coeff0 g) /\
    derivable_pt_lim (slice1 (G_x (Vec2 0 0)) (Vec2 1 0)) 0 (coeff1 g).
Proof.
  apply (proj2 (gradG_is_gradient (Vec2 0 0) (Vec2 1 0))).
  intros H. apply (f_equal coeff0) in H. cbn in H. lra.
Defined.

(** X12: the fundamental solution is harmonic away from its singular
    point: the Laplacian of y |-> G(x,y) is 0 at every y <> x. *)
Theorem G_harmonic (x y : Vector2d) :
  (forall y', y' <> x -> Reference.G x y' = Ok (G_x x y')) /\
  (y <> x -> has_laplacian (G_x x) y 0).
Proof.
  split.
  { intros y' Hne. rewrite <- eval_is_reference_G. apply eval_away.
    congruence. }
  intros Hne.
  assert (Hpos : 0 < norm (x - y)%vec) by (apply norm_pos_of_neq; congruence).
  destruct (norm_as_rho_from x y) as [H0 H1].
  set (a0 := coeff0 x) in *. set (b0 := coeff1 x - coeff1 y) in *.
  set (a1 := coeff1 x) in *. set (b1 := a0 - coeff0 y) in *.
  set (d := norm (x - y)%vec) in *.
  assert (Hp0 : 0 < rho a0 b0 (coeff0 y)) by now rewrite <- H0.
  assert (Hp1 : 0 < rho a1 b1 (coeff1 y)) by now rewrite <- H1.
  destruct (rho_positive_near _ _ _ Hp0) as [e0 [He0 Hnear0]].
  destruct (rho_positive_near _ _ _ Hp1) as [e1 [He1 Hnear1]].
  exists (fun t => - (1 / (2 * PI)) * ((t - a0) / (rho a0 b0 t * rho a0 b0 t))),
         (fun t => - (1 / (2 * PI)) * ((t - a1) / (rho a1 b1 t * rho a1 b1 t))),
         (- (1 / (2 * PI)) *
            ((b0 * b0 - (coeff0 y - a0) * (coeff0 y - a0)) / (d * d * (d * d)))),
         (- (1 / (2 * PI)) *
            ((b1 * b1 - (coeff1 y - a1) * (coeff1 y - a1)) / (d * d * (d * d)))),
         (Rmin e0 e1).
  split; [now apply Rmin_glb_lt |].
  split; [| split; [| split; [| split]]].
  - intros t Ht. unfold slice0.
    apply (derivable_pt_lim_local _
             (fun s => - (1 / (2 * PI)) * ln (rho a0 b0 s)) _ _ 1 Rlt_0_1).
    { intros s _. apply G_x_along_first. }
    apply log_rho_derivative, Hnear0.
    apply Rlt_le_trans with (1 := Ht), Rmin_l.
  - intros t Ht. unfold slice1.
    apply (derivable_pt_lim_local _
             (fun s => - (1 / (2 * PI)) * ln (rho a1 b1 s)) _ _ 1 Rlt_0_1).
    { intros s _. apply G_x_along_second. }
    apply log_rho_derivative, Hnear1.
    apply Rlt_le_trans with (1 := Ht), Rmin_r.
  - rewrite H0. now apply log_rho_second_derivative.
  - rewrite H1. now apply log_rho_second_derivative.
  - pose proof PI_RGT_0 as Hpi.
    assert (Hb : coeff1 y - a1 = - b0) by (unfold b0, a1; ring).
    assert (Ha : coeff0 y - a0 = - b1) by (unfold b1; ring).
    rewrite Ha, Hb. field. split; lra.
Qed.

Lemma G_harmonic_witness : has_laplacian (G_x (Vec2 0 0)) (Vec2 1 0) 0.
Proof.
  apply (proj2 (G_harmonic (Vec2 0 0) (Vec2 1 0))).
  intros H. apply (f_equal coeff0) in H. cbn in H. lra.
Defined.

(** * Further properties of the reference bump function *)

Lemma Psi_eval_range (center y : Vector2d) :
  0 <= Psi.eval (Psi.make center) y <= 1.
Proof.
  unfold Psi.eval. cbn [Psi.center_].
  destruct (Rle_dec _ _); [lra |]. destruct (Rge_dec _ _); [lra |].
  pose proof (COS_bound (Psi.constant * (norm (y - center)%vec - 0.5)))
    as [Hlo Hhi].
  set (co := cos (Psi.constant * (norm (y - center)%vec - 0.5))) in *.
  split; [apply pow2_ge_0 |].
  replace (co ^ 2) with (co * co) by ring.
  assert (H : 0 <= (1 - co) * (1 + co)) by (apply Rmult_le_pos; lra).
  lra.
Qed.

Lemma Psi_eval_monotone (center y y' : Vector2d) :
  norm (y - center)%vec <= norm (y' - center)%vec ->
  Psi.eval (Psi.make center) y <= Psi.eval (Psi.make center) y'.
Proof.
  intros Hle.
  destruct (Rle_lt_dec (norm (y - center)%vec) (0.25 * sqrt 2)) as [Hin | Hd].
  { rewrite (Psi_eval_inner center y Hin). apply Psi_eval_range. }
  destruct (Rle_lt_dec 0.5 (norm (y' - center)%vec)) as [Hout | Hd'].
  { rewrite (Psi_eval_outer center y') by lra. apply Psi_eval_range. }
  assert (Ht : 0.25 * sqrt 2 < norm (y - center)%vec < 0.5) by lra.
  assert (Ht' : 0.25 * sqrt 2 < norm (y' - center)%vec < 0.5) by lra.
  rewrite (Psi_eval_transition center y Ht),
          (Psi_eval_transition center y' Ht').
  pose proof (phase_range _ Ht) as [Hp0 Hp1].
  pose proof (phase_range _ Ht') as [Hq0 Hq1].
  pose proof constant_bounds as [_ Hc]. pose proof PI2_Rlt_PI.
  apply pow_incr. split.
  - left. apply cos_gt_0; lra.
  - apply cos_decr_1; try lra.
    apply Rmult_le_compat_neg_l; lra.
Qed.

(** X13: the bump function takes its values between 0 and 1 and does not
    decrease with the distance from the centre. *)
Theorem Psi_range_and_monotone (y y' : Vector2d) :
  0 <= Reference.Psi y <= 1 /\
  (norm (y - Reference.half)%vec <= norm (y' - Reference.half)%vec ->
   Reference.Psi y <= Reference.Psi y').
Proof.
  rewrite <- !Psi_eval_is_reference. split.
  - apply Psi_eval_range.
  - apply Psi_eval_monotone.
Qed.

Lemma Psi_range_and_monotone_witness :
  Reference.Psi (Vec2 0.9 0.5) <= Reference.Psi (Vec2 1 0.5).
Proof.
  apply (proj2 (Psi_range_and_monotone (Vec2 0.9 0.5) (Vec2 1 0.5))).
  assert (H : norm (Vec2 1 0.5 - Reference.half)%vec = 0.5).
  { unfold norm, squaredNorm, dot, Reference.half. cbn [vsub coeff0 coeff1].
    replace ((1 - 0.5) * (1 - 0.5) + (0.5 - 0.5) * (0.5 - 0.5))
      with (0.5 * 0.5) by lra.
    apply sqrt_square. lra. }
  rewrite H. change Reference.half with Psi.default_center.
  rewrite norm_sample_point. lra.
Defined.

(** X14: in the transition region [gradPsi] is the gradient of [Psi]: its
    components are the two partial derivatives. *)
Theorem gradPsi_is_gradient (y : Vector2d) :
  0.25 * sqrt 2 < norm (y - Reference.half)%vec < 0.5 ->
  derivable_pt_lim (slice0 Reference.Psi y) (coeff0 y)
    (coeff0 (Reference.gradPsi y)) /\
  derivable_pt_lim (slice1 Reference.Psi y) (coeff1 y)
    (coeff1 (Reference.gradPsi y)).
Proof.
  intros Hd. exact (Psi_grad_is_gradient Psi.default_center y Hd).
Qed.

Lemma gradPsi_is_gradient_witness :
  derivable_pt_lim (slice0 Reference.Psi (Vec2 0.9 0.5)) 0.9
    (coeff0 (Reference.gradPsi (Vec2 0.9 0.5))) /\
  derivable_pt_lim (slice1 Reference.Psi (Vec2 0.9 0.5)) 0.5
    (coeff1 (Reference.gradPsi (Vec2 0.9 0.5))).
Proof.
  apply (gradPsi_is_gradient (Vec2 0.9 0.5)).
  change Reference.half with Psi.default_center.
  rewrite norm_sample_point. pose proof sqrt2_bounds. lra.
Defined.

Lemma Psi_grad_norm_bound (center y : Vector2d) :
  norm (Psi.grad (Psi.make center) y) <= - Psi.constant.
Proof.
  pose proof constant_bounds as [_ Hc].
  destruct (Rle_lt_dec (norm (y - center)%vec) (0.25 * sqrt 2)) as [Hin | Hd].
  { rewrite (Psi_grad_inner center y Hin), norm_zero_vector. lra. }
  destruct (Rle_lt_dec 0.5 (norm (y - center)%vec)) as [Hout | Hd'].
  { rewrite (Psi_grad_outer center y), norm_zero_vector by lra. lra. }
  rewrite Psi_grad_norm_transition by lra.
  set (th := Psi.constant * (norm (y - center)%vec - 0.5)).
  pose proof (SIN_bound (2 * th)) as [_ Hs]. rewrite sin_2a in Hs.
  replace (2 * - Psi.constant * cos th * sin th)
    with (- Psi.constant * (2 * sin th * cos th)) by ring.
  rewrite <- (Rmult_1_r (- Psi.constant)) at 2.
  apply Rmult_le_compat_l; lra.
Qed.

(** X15: the gradient of the bump function is bounded everywhere:
    |gradPsi(y)| <= pi / (1 - 0.5 sqrt 2), which is below 16. *)
Theorem gradPsi_bounded (y : Vector2d) :
  norm (Reference.gradPsi y) <= PI / (1 - 0.5 * sqrt 2) /\
  PI / (1 - 0.5 * sqrt 2) < 16.
Proof.
  pose proof sqrt2_bounds as [Hs1 Hs2].
  assert (Heq : PI / (1 - 0.5 * sqrt 2) = - Psi.constant).
  { unfold Psi.constant. field. split; lra. }
  rewrite Heq, <- Psi_grad_is_reference. split.
  - apply Psi_grad_norm_bound.
  - pose proof constant_bounds. lra.
Qed.

(** * The double layer potential and the orientation of the normal *)

Lemma PDL_loop_reversed {MP : MeshProvider} (n : Vector2d -> Vector2d)
    (v : Vector2d -> R) (x : Vector2d) (es : list Entity) :
  forall acc,
    for_each es
      (fun acc e =>
         geo <- assert_nonnull (EntityGeometry e) "Missing geometry!" ;;
         gradGm <- FundamentalSolution.grad (FundamentalSolution.make x)
                     (edge_midpoint (Corners geo)) ;;
         Ok (acc + v (edge_midpoint (Corners geo)) *
                   dot gradGm ((-1) *: n (edge_midpoint (Corners geo)))%vec *
                   Volume geo)) (- acc)
    = (r <- for_each es
              (fun acc e =>
                 geo <- assert_nonnull (EntityGeometry e)
                          "Missing geometry!" ;;
                 gradGm <- FundamentalSolution.grad
                             (FundamentalSolution.make x)
                             (edge_midpoint (Corners geo)) ;;
                 Ok (acc + v (edge_midpoint (Corners geo)) *
                           dot gradGm (n (edge_midpoint (Corners geo))) *
                           Volume geo)) acc ;;
       Ok (- r)).
Proof.
  induction es as [| e es IH]; intros acc; [reflexivity |].
  cbn [for_each].
  destruct (EntityGeometry e) as [geo |]; cbn [assert_nonnull bind];
    [| reflexivity].
  destruct (FundamentalSolution.grad _ _) as [g | f]; cbn [bind];
    [| reflexivity].
  rewrite <- IH. f_equal. unfold dot, vscale. cbn [coeff0 coeff1]. ring.
Qed.

(** X17: reversing the normal field reverses the sign of the double layer
    potential, and leaves its failures as they are. *)
Theorem PDL_reversed_normal {MP : MeshProvider}
    (OuterNormalUnitSquare : Vector2d -> Vector2d) (SOLUTION : bool)
    (mesh : Mesh) (v : Vector2d -> R) (x : Vector2d) :
  PDL (fun m => ((-1) *: OuterNormalUnitSquare m)%vec) SOLUTION mesh v x =
    (r <- PDL OuterNormalUnitSquare SOLUTION mesh v x ;; Ok (- r)).
Proof.
  destruct SOLUTION.
  - rewrite !PDL_over_boundary_edges.
    replace 0 with (- 0) at 1 by ring.
    apply PDL_loop_reversed.
  - cbn. f_equal. ring.
Qed.
